(** * mold.h: a shallow embedding of the linker's core data model

    The first part embeds the header: machine integers, the section
    header, string pieces and symbols, input sections and output chunks,
    the interning table, the fatal error reporter and the chunks that
    write their own bytes.  C++ objects that are reached through pointers
    live in explicit stores indexed by address; [nullptr] is address 0.
    Passes whose bodies are in other translation units (symbol binding,
    offset assignment, chunk collection) are modelled from the design
    document and marked as such.  The second part states and proves the
    properties. *)

From Stdlib Require Import ZArith Lia Strings.Byte Strings.Ascii.
From stdpp Require Import gmap strings list fin_maps sorting.

Local Open Scope Z_scope.

(** ** Machine integers and pointers *)

Definition u32_max : Z := 2 ^ 32.
Definition u64_max : Z := 2 ^ 64.

(** Unsigned 64-bit addition, as the usual arithmetic conversions give it
  when one operand is a [u64]. *)
Definition u64_add (a b : Z) : Z := (a + b) mod u64_max.

Definition ptr : Type := N.
Definition nullptr : ptr := 0%N.

Definition is_null (p : ptr) : bool := bool_decide (p = nullptr).

(** ** ELF section header (llvm's [ELF64LE::Shdr]) *)

Module Shdr.
Record t : Type := mk {
  sh_name : Z;
  sh_type : Z;
  sh_flags : Z;
  sh_addr : Z;
  sh_offset : Z;
  sh_size : Z;
  sh_link : Z;
  sh_info : Z;
  sh_addralign : Z;
  sh_entsize : Z
}.

(** [ELF64LE::Shdr shdr = {}] *)
Definition zero : t := mk 0 0 0 0 0 0 0 0 0 0.

Definition set_addralign (v : Z) (s : t) : t :=
  mk (sh_name s) (sh_type s) (sh_flags s) (sh_addr s) (sh_offset s)
     (sh_size s) (sh_link s) (sh_info s) v (sh_entsize s).
Definition set_flags (v : Z) (s : t) : t :=
  mk (sh_name s) (sh_type s) v (sh_addr s) (sh_offset s)
     (sh_size s) (sh_link s) (sh_info s) (sh_addralign s) (sh_entsize s).
Definition set_type (v : Z) (s : t) : t :=
  mk (sh_name s) v (sh_flags s) (sh_addr s) (sh_offset s)
     (sh_size s) (sh_link s) (sh_info s) (sh_addralign s) (sh_entsize s).
Definition set_offset (v : Z) (s : t) : t :=
  mk (sh_name s) (sh_type s) (sh_flags s) (sh_addr s) v
     (sh_size s) (sh_link s) (sh_info s) (sh_addralign s) (sh_entsize s).
Definition set_size (v : Z) (s : t) : t :=
  mk (sh_name s) (sh_type s) (sh_flags s) (sh_addr s) (sh_offset s)
     v (sh_link s) (sh_info s) (sh_addralign s) (sh_entsize s).
End Shdr.

(** Constants of llvm/BinaryFormat/ELF.h that the header names. *)
Module ELF.
Definition STT_NOTYPE : Z := 0.
Definition SHT_PROGBITS : Z := 1.
Definition SHT_SYMTAB : Z := 2.
Definition SHT_STRTAB : Z := 3.
Definition SHT_RELA : Z := 4.
Definition SHT_NOBITS : Z := 8.
Definition SHF_WRITE : Z := 1.
Definition SHF_ALLOC : Z := 2.
Definition SHF_EXECINSTR : Z := 4.
End ELF.

(** ** String pieces and symbols *)

Module StringPiece.
Record t : Type := mk {
  data : string;
  isec : ptr;               (* std::atomic<InputSection *> *)
  output_offset : Z         (* u32 *)
}.

(** [StringPiece(StringRef data, InputSection *isec)] *)
Definition ctor (d : string) (i : ptr) : t := mk d i 0.

(** [StringPiece(const StringPiece &other)] *)
Definition copy (other : t) : t :=
  mk (data other) (isec other) (output_offset other).
End StringPiece.

Module StringPieceRef.
Record t : Type := mk {
  piece : ptr;
  input_offset : Z;
  addend : Z
}.

(** The default member initialisers. *)
Definition default : t := mk nullptr 0 0.
End StringPieceRef.

Module Symbol.
Definition NEEDS_GOT : Z := 1.
Definition NEEDS_GOTTP : Z := 2.
Definition NEEDS_PLT : Z := 4.

Record t : Type := mk {
  name : string;
  file : ptr;
  input_section : ptr;
  piece_ref : StringPieceRef.t;
  value : Z;
  got_offset : Z;
  gotplt_offset : Z;
  gottp_offset : Z;
  plt_offset : Z;
  relplt_offset : Z;
  shndx : Z;
  mu : bool;                (* tbb::spin_mutex, [true] when held *)
  is_placeholder : bool;
  is_dso : bool;
  is_weak : bool;
  is_undef_weak : bool;
  traced : bool;
  flags : Z;                (* std::atomic_uint8_t *)
  visibility : Z;
  type : Z
}.

(** [Symbol(StringRef name, ObjectFile *file = nullptr)]: the member
    initialiser list sets the name, the file and the five bit-fields;
    every other member takes its default member initialiser. *)
Definition ctor (n : string) (f : ptr) : t :=
  {| name := n;
     file := f;
     input_section := nullptr;
     piece_ref := StringPieceRef.default;
     value := 0;
     got_offset := 0;
     gotplt_offset := 0;
     gottp_offset := 0;
     plt_offset := 0;
     relplt_offset := 0;
     shndx := 0;
     mu := false;
     is_placeholder := false;
     is_dso := false;
     is_weak := false;
     is_undef_weak := false;
     traced := false;
     flags := 0;
     visibility := 0;
     type := ELF.STT_NOTYPE |}.

(** [Symbol(const Symbol &other) : Symbol(other.name, other.file) {}] *)
Definition copy (other : t) : t := ctor (name other) (file other).
End Symbol.

(** ** Input sections and output chunks *)

Module Rela.
Record t : Type := mk {
  r_offset : Z;
  r_info : Z;
  r_addend : Z
}.
End Rela.

Module InputSection.
Record t : Type := mk {
  file : ptr;
  output_section : ptr;
  rels : list Rela.t;
  shdr : Shdr.t;
  name : string;
  offset : Z;                 (* u32 *)
  merged_section : ptr;
  pieces : list StringPieceRef.t;
  rel_pieces : list StringPieceRef.t;
  merged_offset : Z;          (* u32 *)
  merged_size : Z             (* u32 *)
}.
End InputSection.

(** The number of bits set among the lowest [n] bits. *)
Fixpoint popcount_bits (n : nat) (x : Z) : Z :=
  match n with
  | O => 0
  | S n' => (if Z.odd x then 1 else 0) + popcount_bits n' (Z.div2 x)
  end.

(** [__builtin_popcount] takes an [unsigned int]: a [u64] argument is cut
    to its low 32 bits. *)
Definition builtin_popcount (x : Z) : Z := popcount_bits 32 (x mod u32_max).

(** The value of [(val + align - 1) & ~(align - 1)] on [u64]. *)
Definition align_to_value (val align : Z) : Z :=
  Z.land ((val + align - 1) mod u64_max) (Z.lnot (align - 1) mod u64_max).

(** [align_to]: the assertion ends the process when it fails, and then
    there is no result. *)
Definition align_to (val align : Z) : option Z :=
  if bool_decide (builtin_popcount align = 1)
  then Some (align_to_value val align)
  else None.

Module OutputChunk.
Record t : Type := mk {
  name : string;
  shndx : Z;
  starts_new_ptload : bool;
  shdr : Shdr.t;
  sections : list ptr
}.

(** [OutputChunk() { shdr.sh_addralign = 1; }] *)
Definition ctor : t :=
  mk "" 0 false (Shdr.set_addralign 1 Shdr.zero) [].

Definition set_name (n : string) (c : t) : t :=
  mk n (shndx c) (starts_new_ptload c) (shdr c) (sections c).
Definition set_shdr (s : Shdr.t) (c : t) : t :=
  mk (name c) (shndx c) (starts_new_ptload c) s (sections c).
Definition upd_shdr (f : Shdr.t -> Shdr.t) (c : t) : t :=
  set_shdr (f (shdr c)) c.
End OutputChunk.

(** ** The object store

    Pieces, input sections and chunks are reached through pointers; an
    [OutputSection *] or [MergedSection *] is read through its
    [OutputChunk] base.  A [MergedSection] is that base together with
    its table of pieces. *)

Record Heap : Type := mkHeap {
  heap_pieces : gmap N StringPiece.t;
  heap_isecs : gmap N InputSection.t;
  heap_chunks : gmap N OutputChunk.t;
  (* [MergedSection::map] of the merged section at an address: its
     nodes in iteration order, each as the address of its piece *)
  heap_tables : gmap N (list ptr)
}.

(** Reading through a pointer; a null or dangling pointer has no value. *)
Definition load {A : Type} (m : gmap N A) (p : ptr) : option A :=
  if is_null p then None else m !! p.

(** [StringPiece::get_addr] *)
Definition StringPiece_get_addr (h : Heap) (this : StringPiece.t) : option Z :=
  isec ← load (heap_isecs h) (StringPiece.isec this);
  ms ← load (heap_chunks h) (InputSection.merged_section isec);
  Some (u64_add
          (u64_add (Shdr.sh_addr (OutputChunk.shdr ms))
                   (InputSection.merged_offset isec))
          (StringPiece.output_offset this)).

(** [Symbol::get_addr] *)
Definition Symbol_get_addr (h : Heap) (this : Symbol.t) : option Z :=
  let ref := Symbol.piece_ref this in
  if negb (is_null (StringPieceRef.piece ref)) then
    p ← load (heap_pieces h) (StringPieceRef.piece ref);
    a ← StringPiece_get_addr h p;
    Some (u64_add a (StringPieceRef.addend ref))
  else if negb (is_null (Symbol.input_section this)) then
    isec ← load (heap_isecs h) (Symbol.input_section this);
    os ← load (heap_chunks h) (InputSection.output_section isec);
    Some (u64_add
            (u64_add (Shdr.sh_addr (OutputChunk.shdr os))
                     (InputSection.offset isec))
            (Symbol.value this))
  else Some (Symbol.value this).

(** ** Interned strings: [ConcurrentMap]

    [tbb::concurrent_hash_map] keeps every element in a node of its own
    that is never moved and, as the class has no erase, never freed.  The
    table is the sequence of its nodes in allocation order and a
    [ValueT *] is the position of the node it points into.
    [map.insert(acc, pair)] is atomic: it finds the node whose key equals
    the given one or links a new node that holds a copy of the pair. *)

Class CopyConstructible (V : Type) : Type := copy_ctor : V -> V.

#[global] Instance Symbol_copy : CopyConstructible Symbol.t := Symbol.copy.
#[global] Instance StringPiece_copy : CopyConstructible StringPiece.t :=
  StringPiece.copy.

Module ConcurrentMap.
Abbreviation t ValueT := (list (string * ValueT)) (only parsing).

Section WithValue.
Context {ValueT : Type} `{!CopyConstructible ValueT}.
Local Abbreviation MapT := (list (string * ValueT)) (only parsing).

Definition empty : MapT := [].

(** The node that holds [key], if any. *)
Fixpoint find (key : string) (map : MapT) : option nat :=
  match map with
  | [] => None
  | (k, _) :: rest =>
      if decide (k = key) then Some 0%nat else S <$> find key rest
  end.

Definition insert (key : string) (val : ValueT) (map : MapT) : MapT * nat :=
  match find key map with
  | Some node => (map, node)
  | None => (map ++ [(key, copy_ctor val)], length map)
  end.

Definition size (map : MapT) : nat := length map.

(** Reading through a returned pointer. *)
Definition deref (map : MapT) (p : nat) : option ValueT := snd <$> map !! p.

(** A run of inserts in the order in which they take effect. *)
Definition inserts (ops : list (string * ValueT)) (map : MapT) : MapT :=
  foldl (fun m op => fst (insert (fst op) (snd op) m)) map ops.

(** How many nodes carry [key]. *)
Definition count (key : string) (map : MapT) : nat :=
  length (filter (fun kv => fst kv = key) map).
End WithValue.
End ConcurrentMap.

(** [Symbol::intern], with the function-local static table passed in. *)
Definition Symbol_intern (name : string) (map : ConcurrentMap.t Symbol.t)
  : ConcurrentMap.t Symbol.t * nat :=
  ConcurrentMap.insert name (Symbol.ctor name nullptr) map.

(** ** Configuration and the fatal error reporter *)

Record Config : Type := mkConfig {
  output : string;
  print_map : bool;
  is_static : bool
}.

Definition config : Config := mkConfig "" false false.

(** What a call can observe and change outside the object store: the
    text written to [llvm::errs()] and the mutex local to [error]. *)
Record World : Type := mkWorld {
  errs : string;
  error_mu : bool             (* [true] while some thread holds it *)
}.

(** A call returns, ends the process through [exit], or waits for ever. *)
Inductive Outcome (A : Type) : Type :=
| Returned (a : A) (w : World)
| Exited (status : Z) (w : World)
| Blocked (w : World).
Arguments Returned {A} a w.
Arguments Exited {A} status w.
Arguments Blocked {A} w.

Definition Proc (A : Type) : Type := World -> Outcome A.

Definition ret {A : Type} (a : A) : Proc A := fun w => Returned a w.

Definition bind {A B : Type} (m : Proc A) (k : A -> Proc B) : Proc B :=
  fun w =>
    match m w with
    | Returned a w' => k a w'
    | Exited status w' => Exited status w'
    | Blocked w' => Blocked w'
    end.

Definition LF : ascii := "010"%char.
Definition endl : string := String LF EmptyString.

Definition lock_error_mu (w : World) : World := mkWorld (errs w) true.
Definition write_errs (s : string) (w : World) : World :=
  mkWorld (errs w +:+ s) (error_mu w).

(** [error]: the guard is never released, [exit] does not unwind. *)
Definition error {A : Type} (msg : string) : Proc A :=
  fun w =>
    if error_mu w then Blocked w
    else
      let w := lock_error_mu w in
      let w := write_errs msg w in
      let w := write_errs endl w in
      Exited 1 w.

(** [ErrorOr<T>] and [Expected<T>]: a value or the message of an error. *)
Definition ErrorOr (T : Type) : Type := string + T.

Definition check {T : Type} (e : ErrorOr T) : Proc T :=
  match e with
  | inl message => error message
  | inr v => ret v
  end.

Definition check2 {T : Type} (e : ErrorOr T) (prefix : unit -> string)
  : Proc T :=
  match e with
  | inl message => error (prefix tt +:+ ": " +:+ message)
  | inr v => ret v
  end.

(** Modelled from the spec: the driver ([main]) is not part of the
    sources.  Section 6 gives the exit codes: 0 on success, which is a
    driver that returns, and otherwise the status handed to [exit]. *)
Definition exit_status {A : Type} (o : Outcome A) : option Z :=
  match o with
  | Returned _ _ => Some 0
  | Exited status _ => Some status
  | Blocked _ => None
  end.

(** Computations whose only way of ending the process is [error]: the
    header has no other call of [exit]. *)
Inductive exits_through_error : forall {A : Type}, Proc A -> Prop :=
| through_ret {A : Type} (a : A) : exits_through_error (ret a)
| through_error {A : Type} (msg : string) : exits_through_error (@error A msg)
| through_bind {A B : Type} (m : Proc A) (k : A -> Proc B) :
    exits_through_error m ->
    (forall a, exits_through_error (k a)) ->
    exits_through_error (bind m k).

(** Line feeds in a text, that is the number of lines it completes. *)
Fixpoint count_lines (s : string) : nat :=
  match s with
  | EmptyString => 0%nat
  | String c rest =>
      if Ascii.eqb c LF then S (count_lines rest) else count_lines rest
  end.

(** ** The output image

    The output buffer is the list of its bytes and a [u8 *] into it is an
    offset.  A write that leaves the buffer has no defined result. *)

Definition memcpy (buf : list byte) (dst : Z) (src : list byte)
  : option (list byte) :=
  if bool_decide (0 <= dst /\ dst + Z.of_nat (length src) <= Z.of_nat (length buf))
  then Some (take (Z.to_nat dst) buf ++ src
               ++ drop (Z.to_nat dst + length src) buf)
  else None.

Definition u8_of_Z (v : Z) : byte :=
  match Byte.of_N (Z.to_N (Z.land v 255)) with
  | Some b => b
  | None => x00
  end.

(** The bytes of an [n]-byte unsigned integer in memory; the linker runs
    on, and links for, x86-64, so the least significant byte is first. *)
Fixpoint le_bytes (n : nat) (v : Z) : list byte :=
  match n with
  | O => []
  | S n' => u8_of_Z v :: le_bytes n' (Z.shiftr v 8)
  end.

Fixpoint le_value (bs : list byte) : Z :=
  match bs with
  | [] => 0
  | b :: rest => Z.of_N (Byte.to_N b) + 256 * le_value rest
  end.

Definition store_u8 (buf : list byte) (p : Z) (v : Z) : option (list byte) :=
  memcpy buf p [u8_of_Z v].

Definition store_u32 (buf : list byte) (p : Z) (v : Z) : option (list byte) :=
  memcpy buf p (le_bytes 4 v).

(** [PltSection::write_entry], [buf] pointing at offset [p]. *)
Definition PltSection_write_entry (mem : list byte) (p : Z) (value : Z)
  : option (list byte) :=
  mem ← store_u8 mem p 0xff;
  mem ← store_u8 mem (p + 1) 0x25;
  store_u32 mem (p + 2) value.

Definition NUL : string := String "000"%char EmptyString.

Module ShstrtabSection.
Record t : Type := mk {
  chunk : OutputChunk.t;
  contents : string
}.

Definition ctor : t :=
  mk (OutputChunk.upd_shdr (Shdr.set_size 1)
        (OutputChunk.upd_shdr (Shdr.set_type ELF.SHT_STRTAB)
           (OutputChunk.upd_shdr (Shdr.set_flags 0)
              (OutputChunk.set_name ".shstrtab" OutputChunk.ctor))))
     NUL.

Definition add_string (s : string) (this : t) : t * Z :=
  let ret := Z.of_nat (String.length (contents this)) in
  let contents := contents this +:+ s in
  let contents := contents +:+ NUL in
  (mk (OutputChunk.upd_shdr
         (Shdr.set_size (Z.of_nat (String.length contents))) (chunk this))
      contents,
   ret).

Definition copy_to (this : t) (buf : list byte) : option (list byte) :=
  memcpy buf (Shdr.sh_offset (OutputChunk.shdr (chunk this)))
         (String.list_byte_of_string (contents this)).

(** [add_string] for each name in turn, with the offsets it returned. *)
Fixpoint add_strings (names : list string) (this : t) : t * list Z :=
  match names with
  | [] => (this, [])
  | s :: rest =>
      let '(this, off) := add_string s this in
      let '(this, offs) := add_strings rest this in
      (this, off :: offs)
  end.

(** The recorded size is the length of the contents. *)
Definition sized (this : t) : Prop :=
  Shdr.sh_size (OutputChunk.shdr (chunk this))
  = Z.of_nat (String.length (contents this)).
End ShstrtabSection.

Module InterpSection.
(** [static constexpr char path[]], terminator included. *)
Definition path : string := "/lib64/ld-linux-x86-64.so.2" +:+ NUL.

Definition sizeof_path : Z := Z.of_nat (String.length path).

Definition ctor : OutputChunk.t :=
  OutputChunk.upd_shdr (Shdr.set_size sizeof_path)
    (OutputChunk.upd_shdr (Shdr.set_type ELF.SHT_PROGBITS)
       (OutputChunk.upd_shdr (Shdr.set_flags ELF.SHF_ALLOC)
          (OutputChunk.set_name ".interp" OutputChunk.ctor))).

Definition copy_to (this : OutputChunk.t) (buf : list byte)
  : option (list byte) :=
  memcpy buf (Shdr.sh_offset (OutputChunk.shdr this))
         (take (Z.to_nat sizeof_path) (String.list_byte_of_string path)).
End InterpSection.

(** ** Offsets of merged string pieces *)

Definition set_output_offset (o : Z) (p : StringPiece.t) : StringPiece.t :=
  StringPiece.mk (StringPiece.data p) (StringPiece.isec p) o.

Definition piece_end (p : StringPiece.t) : Z :=
  StringPiece.output_offset p + Z.of_nat (String.length (StringPiece.data p)).

Definition with_pieces (pieces : gmap N StringPiece.t) (h : Heap) : Heap :=
  mkHeap pieces (heap_isecs h) (heap_chunks h) (heap_tables h).


(** Modelled from the spec: the pass that assigns piece offsets
    ([assign_mergeable_string_offsets], object_file.cc) is not part of the
    sources.  Section 4.4: iterate the table and assign each piece an
    [output_offset] respecting the section's [sh_addralign].  The pieces
    are laid out in the table's iteration order, each at the next aligned
    position after the one before it; the offset is a [u32] field, and
    the position after a piece is its stored offset plus its length.
    The offset is the piece's offset inside its merged section (section
    3); no input section's [merged_offset] is written. *)
Fixpoint assign_from (align off : Z) (table : list ptr) (h : Heap)
  : option Heap :=
  match table with
  | [] => Some h
  | pp :: rest =>
      p ← load (heap_pieces h) pp;
      o ← align_to off align;
      let p' := set_output_offset (o mod u32_max) p in
      assign_from align (piece_end p') rest
        (with_pieces (<[pp := p']> (heap_pieces h)) h)
  end.

(** The largest [output_offset + length] over the pieces at the given
    addresses. *)
Fixpoint max_piece_end (h : Heap) (table : list ptr) : Z :=
  match table with
  | [] => 0
  | pp :: rest =>
      match load (heap_pieces h) pp with
      | Some p => Z.max (piece_end p) (max_piece_end h rest)
      | None => max_piece_end h rest
      end
  end.

(** Modelled from the spec: section 4.4, after assignment [sh_size]
    equals the largest [output_offset + piece.length]. *)
Definition assign_offsets (m : ptr) (h : Heap) : option Heap :=
  ms ← load (heap_chunks h) m;
  table ← load (heap_tables h) m;
  h1 ← assign_from (Shdr.sh_addralign (OutputChunk.shdr ms)) 0 table h;
  let ms' :=
    OutputChunk.upd_shdr (Shdr.set_size (max_piece_end h1 table)) ms in
  Some (mkHeap (heap_pieces h1) (heap_isecs h1)
               (<[m := ms']> (heap_chunks h1)) (heap_tables h1)).

(** ** Symbol resolution *)

Module Resolver.
(** What an ELF symbol of an object file says about a name. *)
Inductive Binding : Type :=
| Undefined
| Common (size align : Z)
| Weak
| Strong.

Record Esym : Type := mkEsym {
  es_name : string;
  es_binding : Binding;
  es_comdat : bool            (* its section is COMDAT-discardable *)
}.

Record ObjectFile : Type := mkFile {
  priority : Z;
  is_alive : bool;
  elf_syms : list Esym         (* the global symbols, in index order *)
}.

(** The resolution state of an interned symbol: the defining file (none
    while the symbol is a placeholder or undefined), how it is defined,
    and the files that referred to it. *)
Record Sym : Type := mkSym {
  file : option ObjectFile;
  binding : Binding;
  comdat : bool;
  referenced_by : list Z
}.

Definition placeholder : Sym := mkSym None Undefined false [].

Definition install (f : ObjectFile) (e : Esym) (s : Sym) : Sym :=
  mkSym (Some f) (es_binding e) (es_comdat e) (referenced_by s).

Definition record_reference (f : ObjectFile) (s : Sym) : Sym :=
  mkSym (file s) (binding s) (comdat s) (referenced_by s ++ [priority f]).

(** The file of the incoming definition comes before the file of the
    installed one. *)
Definition comes_first (f : ObjectFile) (s : Sym) : bool :=
  match file s with
  | Some g => bool_decide (priority f < priority g)
  | None => true
  end.

(** Modelled from the spec: [ObjectFile::maybe_override_symbol] is only
    declared in mold.h; its body (object_file.cc) is not part of the
    sources.  The rule is the table of section 4.3, Pass B, row by row,
    under its heading: strongest wins; ties broken by priority.  Between
    two strong definitions the row keeps the installed one as the first
    writer by priority: the calls of the pass arrive in an order the
    scheduler chooses, and section 5 breaks every tie on priority, never
    on arrival order, so the installed definition stays unless the
    incoming file has the lower priority, and the definition of the file
    with the lower priority is the one kept.  Two combinations have no
    row: a strong definition against an installed common symbol replaces
    it (strongest wins, and a common symbol is tentative), and a common
    symbol against an installed definition leaves it in place. *)
Definition maybe_override_symbol (f : ObjectFile) (e : Esym) (s : Sym)
  : ErrorOr Sym :=
  match es_binding e, binding s with
  | Undefined, _ => inr (record_reference f s)
  | Strong, Strong =>
      if negb (es_comdat e) && negb (comdat s)
      then inl ("duplicate symbol: " +:+ es_name e)
      else if comes_first f s then inr (install f e s) else inr s
  | Strong, _ => inr (install f e s)
  | Weak, Undefined => inr (install f e s)
  | Weak, _ => inr s
  | Common _ _, Undefined => inr (install f e s)
  | Common size align, Common size' align' =>
      inr (mkSym (file s) (Common (Z.max size size') (Z.max align align'))
                 (comdat s) (referenced_by s))
  | Common _ _, _ => inr s
  end.

(** [Symbol::intern] on the resolver's view of the symbol table: a name
    not yet interned yields a placeholder. *)
Definition intern (name : string) (table : gmap string Sym) : Sym :=
  default placeholder (table !! name).

(** Modelled from the spec: one call of a binding rule in Pass B, made
    for a global symbol of a file against the symbol installed under its
    name, under that symbol's lock. *)
Definition bind_with (rule : ObjectFile -> Esym -> Sym -> ErrorOr Sym)
    (call : ObjectFile * Esym) (table : gmap string Sym)
  : ErrorOr (gmap string Sym) :=
  match rule call.1 call.2 (intern (es_name call.2) table) with
  | inl message => inl message
  | inr s => inr (<[es_name call.2 := s]> table)
  end.

(** Modelled from the spec: a run of Pass B.  The pass is fanned out
    over the files, and the lock of a symbol makes the calls that meet
    on it take effect one after the other, in the order the scheduler
    lets them arrive: a run is the calls in one such order. *)
Fixpoint resolve_with (rule : ObjectFile -> Esym -> Sym -> ErrorOr Sym)
    (schedule : list (ObjectFile * Esym)) (table : gmap string Sym)
  : ErrorOr (gmap string Sym) :=
  match schedule with
  | [] => inr table
  | call :: rest =>
      match bind_with rule call table with
      | inl message => inl message
      | inr table' => resolve_with rule rest table'
      end
  end.

Definition resolve (schedule : list (ObjectFile * Esym))
    (table : gmap string Sym) : ErrorOr (gmap string Sym) :=
  resolve_with maybe_override_symbol schedule table.

(** Modelled from the spec: the calls of Pass B, one for each global
    symbol of each live file. *)
Definition binding_calls (files : list ObjectFile)
  : list (ObjectFile * Esym) :=
  f ← files; if is_alive f then pair f <$> elf_syms f else [].



End Resolver.

(** ** Which chunks make up the image *)

Inductive ChunkKind : Type :=
| KInterp | KGot | KGotPlt | KPlt | KRelPlt | KShstrtab | KSymtab | KStrtab.

(** Modelled from the spec: the driver that collects the output chunks
    (main.cc) is not part of the sources.  Section 6: [.interp] is present
    only if a dynamic segment exists, which is never in static mode. *)
Definition has_dynamic_segment (c : Config) : bool := negb (is_static c).

Definition synthetic_chunks (c : Config) : list ChunkKind :=
  (if has_dynamic_segment c then [KInterp] else [])
  ++ [KGot; KGotPlt; KPlt; KRelPlt; KShstrtab; KSymtab; KStrtab].

(** ** Reading the interning table

    The value a key maps to is reached through the pointer that [insert]
    returns for it. *)

Definition ConcurrentMap_get {ValueT : Type} (key : string)
    (map : list (string * ValueT)) : option ValueT :=
  p ← ConcurrentMap.find key map;
  ConcurrentMap.deref map p.

(** The value of the first insert of [key] in a run of inserts. *)
Fixpoint first_value {ValueT : Type} (key : string)
    (ops : list (string * ValueT)) : option ValueT :=
  match ops with
  | [] => None
  | (k, v) :: rest => if decide (k = key) then Some v else first_value key rest
  end.

(** [Symbol::intern] for each name in turn. *)
Definition interns (names : list string) (map : ConcurrentMap.t Symbol.t)
  : ConcurrentMap.t Symbol.t :=
  foldl (fun m name => fst (Symbol_intern name m)) map names.

(** ** Sizes of the ELF structures (llvm/Object/ELFTypes.h) *)

Definition sizeof_Ehdr : Z := 64.
Definition sizeof_Shdr : Z := 64.
Definition sizeof_Phdr : Z := 56.

(** ** Output sections and their registry *)

Module OutputSection.
Record t : Type := mk {
  chunk : OutputChunk.t;
  idx : Z                     (* u32 *)
}.

(** The objects constructed so far, by address, and the static vector
    [instances]. *)
Record Registry : Type := mkRegistry {
  objects : gmap N t;
  instances : list ptr
}.

Definition no_instances : Registry := mkRegistry ∅ [].

(** [OutputSection(StringRef name, u64 flags, u32 type)], constructing
    the object at address [this]. *)
Definition ctor (this : ptr) (name : string) (flags type : Z) (r : Registry)
  : Registry :=
  let base :=
    OutputChunk.upd_shdr (Shdr.set_type type)
      (OutputChunk.upd_shdr (Shdr.set_flags flags)
         (OutputChunk.set_name name OutputChunk.ctor)) in
  let obj := mk base (Z.of_nat (length (instances r)) mod u32_max) in
  mkRegistry (<[this := obj]> (objects r)) (instances r ++ [this]).

(** Constructing one section after the other. *)
Definition ctors (args : list (ptr * string * Z * Z)) (r : Registry)
  : Registry :=
  foldl (fun r a => ctor a.1.1.1 a.1.1.2 a.1.2 a.2 r) r args.

(** The loop of [empty]: [false] at the first section of non-zero size. *)
Fixpoint all_sections_empty (h : Heap) (sections : list ptr) : option bool :=
  match sections with
  | [] => Some true
  | p :: rest =>
      isec ← load (heap_isecs h) p;
      if bool_decide (Shdr.sh_size (InputSection.shdr isec) <> 0)
      then Some false
      else all_sections_empty h rest
  end.

(** [OutputSection::empty] *)
Definition empty (h : Heap) (this : t) : option bool :=
  if bool_decide (OutputChunk.sections (chunk this) <> [])
  then all_sections_empty h (OutputChunk.sections (chunk this))
  else Some true.
End OutputSection.

(** ** The section header table *)

Module OutputShdr.
Record t : Type := mk {
  chunk : OutputChunk.t;
  entries : list ptr          (* each the address of a chunk, for its shdr *)
}.

Definition ctor : t :=
  mk (OutputChunk.upd_shdr (Shdr.set_flags ELF.SHF_ALLOC) OutputChunk.ctor) [].

Definition set_entries (vec : list ptr) (this : t) : t :=
  mk (OutputChunk.upd_shdr
        (Shdr.set_size ((Z.of_nat (length vec) * sizeof_Shdr) mod u64_max))
        (chunk this))
     vec.

(** The loop of [copy_to]: [*p++ = *ent] for each entry.  [repr] gives
    the object representation of an [ELF64LE::Shdr], a type of llvm. *)
Fixpoint write_entries (repr : Shdr.t -> list byte) (h : Heap) (p : Z)
    (entries : list ptr) (buf : list byte) : option (list byte) :=
  match entries with
  | [] => Some buf
  | ent :: rest =>
      c ← load (heap_chunks h) ent;
      buf ← memcpy buf p (repr (OutputChunk.shdr c));
      write_entries repr h (p + sizeof_Shdr) rest buf
  end.

Definition copy_to (repr : Shdr.t -> list byte) (h : Heap) (this : t)
    (buf : list byte) : option (list byte) :=
  write_entries repr h (Shdr.sh_offset (OutputChunk.shdr (chunk this)))
    (entries this) buf.

(** The headers the entries point at, as they are now. *)
Fixpoint current_headers (h : Heap) (entries : list ptr) : list Shdr.t :=
  match entries with
  | [] => []
  | ent :: rest =>
      match load (heap_chunks h) ent with
      | Some c => OutputChunk.shdr c :: current_headers h rest
      | None => current_headers h rest
      end
  end.
End OutputShdr.

(** ** Performance counters *)

Module Counter.
Record t : Type := mk {
  name : string;
  value : Z                   (* std::atomic_uint32_t *)
}.

(** [Counter(StringRef name, u32 value = 0)], constructing the object at
    address [this]: it is appended to the static [instances]. *)
Definition ctor (name : string) (value : Z) (this : ptr)
    (instances : list ptr) : t * list ptr :=
  (mk name value, instances ++ [this]).

(** [inc()], with the static flag [enabled] passed in. *)
Definition inc (enabled : bool) (this : t) : t :=
  if enabled then mk (name this) ((value this + 1) mod u32_max) else this.

(** [inc(u32 delta)] *)
Definition inc_delta (enabled : bool) (delta : Z) (this : t) : t :=
  if enabled then mk (name this) ((value this + delta) mod u32_max) else this.

(** [set(u32 value)] *)
Definition set (v : Z) (this : t) : t := mk (name this) v.

(** [inc(delta)] for each delta in turn. *)
Definition inc_all (enabled : bool) (deltas : list Z) (this : t) : t :=
  foldl (fun c d => inc_delta enabled d c) this deltas.
End Counter.

(** ** Reading a string table

    A name offset denotes the bytes from that offset up to the next
    NUL. *)

Fixpoint string_skip (n : nat) (s : string) : string :=
  match n, s with
  | O, _ => s
  | S n', EmptyString => EmptyString
  | S n', String _ rest => string_skip n' rest
  end.

Fixpoint until_NUL (s : string) : string :=
  match s with
  | EmptyString => EmptyString
  | String c rest =>
      if Ascii.eqb c "000"%char then EmptyString else String c (until_NUL rest)
  end.

Definition name_at (table : string) (off : nat) : string :=
  until_NUL (string_skip off table).

Definition NUL_free (s : string) : Prop := until_NUL s = s.

(** The registry holds the sections constructed with [args], in that
    order, each at its address with its position as [idx]. *)
Definition OutputSection_registered (args : list (ptr * string * Z * Z))
    (r : OutputSection.Registry) : Prop :=
  OutputSection.instances r = args.*1.*1.*1
  /\ forall (i : nat) this name flags type,
       args !! i = Some (this, name, flags, type) ->
       exists o,
         OutputSection.objects r !! this = Some o
         /\ OutputSection.idx o = Z.of_nat i mod u32_max
         /\ OutputChunk.name (OutputSection.chunk o) = name
         /\ Shdr.sh_flags (OutputChunk.shdr (OutputSection.chunk o)) = flags
         /\ Shdr.sh_type (OutputChunk.shdr (OutputSection.chunk o)) = type
         /\ Shdr.sh_addralign (OutputChunk.shdr (OutputSection.chunk o)) = 1.

(** ** Sample objects

    Small concrete stores and values on which the properties below are
    exercised. *)

(** A symbol with every member set. *)
Definition busy_symbol : Symbol.t :=
  Symbol.mk "main" 7%N 9%N (StringPieceRef.mk 3%N 4 5) 4096 8 16 24 32 40 2
            true true true true true true 7 2 2.

Definition chunk_at (addr size align : Z) : OutputChunk.t :=
  OutputChunk.mk "" 0 false (Shdr.mk 0 0 0 addr 0 size 0 0 align 0) [].

Definition isec_in (out merged : ptr) (off moff : Z) : InputSection.t :=
  InputSection.mk 1%N out [] Shdr.zero "" off merged [] [] moff 0.

(** One merged section at address 8 (loaded at 0x400000) holding the
    piece at address 3, one output section at address 9 (loaded at
    0x401000), and an input section at address 5 in both. *)
Definition sample_heap : Heap :=
  mkHeap {[ 3%N := StringPiece.mk "hello" 5%N 16 ]}
         {[ 5%N := isec_in 9%N 8%N 64 0 ]}
         (<[ 8%N := chunk_at 4194304 32 1 ]> {[ 9%N := chunk_at 4198400 256 16 ]})
         {[ 8%N := [3%N] ]}.

Definition symbol_at (piece : ptr) (addend : Z) (isec : ptr) (value : Z)
  : Symbol.t :=
  Symbol.mk "s" 1%N isec (StringPieceRef.mk piece 0 addend) value
            0 0 0 0 0 0 false false false false false false 0 0 0.

Definition sample_image : list byte :=
  [x90; x90; x90; x90; x90; x90; x90; x90; x90; x90].

(** The name table after three names, placed at file offset 2. *)
Definition sample_shstrtab : ShstrtabSection.t :=
  let t :=
    fst (ShstrtabSection.add_strings [".text"; ".data"; ".bss"]
           ShstrtabSection.ctor) in
  ShstrtabSection.mk
    (OutputChunk.upd_shdr (Shdr.set_offset 2) (ShstrtabSection.chunk t))
    (ShstrtabSection.contents t).

(** An interpreter chunk placed at file offset 1. *)
Definition sample_interp : OutputChunk.t :=
  OutputChunk.upd_shdr (Shdr.set_offset 1) InterpSection.ctor.

(** Inserts that take effect before and after an insert under study. *)
Definition interned_before : list (string * Symbol.t) :=
  [("_start", Symbol.ctor "_start" nullptr);
   ("printf", Symbol.ctor "printf" nullptr)].

Definition interned_after : list (string * Symbol.t) :=
  [("exit", Symbol.ctor "exit" nullptr);
   ("main", busy_symbol);
   ("printf", Symbol.ctor "printf" nullptr)].







(** A merged section at address 8, loaded at 0x400000 and aligned to 4,
    with two pieces; the piece at address 3 was won by the input section
    at address 5, the piece at address 4 by the input section at address
    6. *)
Definition merged_heap : Heap :=
  mkHeap (<[ 3%N := StringPiece.ctor ("hello" +:+ NUL) 5%N ]>
            {[ 4%N := StringPiece.ctor ("world" +:+ NUL) 6%N ]})
         (<[ 5%N := isec_in nullptr 8%N 0 0 ]>
            {[ 6%N := isec_in nullptr 8%N 0 0 ]})
         {[ 8%N := chunk_at 4194304 0 4 ]}
         {[ 8%N := [3%N; 4%N] ]}.


(** Two runs of inserts with the same keys in another order. *)
Definition inserts_one_order : list (string * Symbol.t) :=
  [("main", busy_symbol); ("exit", Symbol.ctor "exit" nullptr);
   ("main", Symbol.ctor "main" nullptr)].

Definition inserts_other_order : list (string * Symbol.t) :=
  [("exit", Symbol.ctor "exit" 4%N); ("main", Symbol.ctor "main" nullptr);
   ("main", busy_symbol)].


(** Arguments of three constructor calls of [OutputSection]. *)
Definition three_sections : list (ptr * string * Z * Z) :=
  [(16%N, ".text", 6, 1); (32%N, ".data", 3, 1); (48%N, ".bss", 3, 8)].

(** An output section over the input sections at addresses 5 and 6. *)
Definition section_over (isecs : list ptr) : OutputSection.t :=
  OutputSection.mk (OutputChunk.mk ".text" 0 false Shdr.zero isecs) 0.

Definition sized_isec (size : Z) : InputSection.t :=
  InputSection.mk 1%N nullptr [] (Shdr.set_size size Shdr.zero) ""
                  0 nullptr [] [] 0 0.

Definition isecs_heap (size5 size6 : Z) : Heap :=
  mkHeap ∅ (<[ 5%N := sized_isec size5 ]> {[ 6%N := sized_isec size6 ]}) ∅ ∅.


(** The little-endian layout of a 64-bit section header, field by
    field. *)
Definition Shdr_bytes (s : Shdr.t) : list byte :=
  le_bytes 4 (Shdr.sh_name s) ++ le_bytes 4 (Shdr.sh_type s)
  ++ le_bytes 8 (Shdr.sh_flags s) ++ le_bytes 8 (Shdr.sh_addr s)
  ++ le_bytes 8 (Shdr.sh_offset s) ++ le_bytes 8 (Shdr.sh_size s)
  ++ le_bytes 4 (Shdr.sh_link s) ++ le_bytes 4 (Shdr.sh_info s)
  ++ le_bytes 8 (Shdr.sh_addralign s) ++ le_bytes 8 (Shdr.sh_entsize s).

(** A header table of two entries placed at file offset 8. *)
Definition sample_shdr_table : OutputShdr.t :=
  OutputShdr.set_entries [8%N; 9%N]
    (OutputShdr.mk
       (OutputChunk.upd_shdr (Shdr.set_offset 8) (OutputShdr.chunk OutputShdr.ctor))
       []).

(** * Properties *)

(** ** Machine arithmetic *)

Lemma u64_add_range a b : 0 <= u64_add a b < u64_max.
Proof. unfold u64_add, u64_max. apply Z.mod_pos_bound. lia. Qed.


Lemma load_Some {A : Type} (m : gmap N A) (p : ptr) (x : A) :
  load m p = Some x <-> p <> nullptr /\ m !! p = Some x.
Proof.
  unfold load, is_null. case_bool_decide; split; intros H1.
  - discriminate.
  - destruct H1 as [Hp _]. contradiction.
  - auto.
  - apply H1.
Qed.

Lemma load_valid {A : Type} (m : gmap N A) (p : ptr) (x : A) :
  p <> nullptr -> m !! p = Some x -> load m p = Some x.
Proof. intros. apply load_Some. auto. Qed.

(** ** Copying a symbol *)

(** C10: a copy-constructed [Symbol] keeps the name and the owning file
    of its source and has every other member at its default: null
    section, empty piece reference, zero value, offsets and section
    index, a free lock, all five flags false, no demand bits, zero
    visibility and type [STT_NOTYPE] (which is 0), whatever the source
    held. *)
Theorem Symbol_copy_resets (v : Symbol.t) :
  Symbol.copy v = Symbol.ctor (Symbol.name v) (Symbol.file v)
  /\ Symbol.name (Symbol.copy v) = Symbol.name v
  /\ Symbol.file (Symbol.copy v) = Symbol.file v
  /\ Symbol.input_section (Symbol.copy v) = nullptr
  /\ Symbol.piece_ref (Symbol.copy v) = StringPieceRef.mk nullptr 0 0
  /\ Symbol.value (Symbol.copy v) = 0
  /\ Symbol.got_offset (Symbol.copy v) = 0
  /\ Symbol.gotplt_offset (Symbol.copy v) = 0
  /\ Symbol.gottp_offset (Symbol.copy v) = 0
  /\ Symbol.plt_offset (Symbol.copy v) = 0
  /\ Symbol.relplt_offset (Symbol.copy v) = 0
  /\ Symbol.shndx (Symbol.copy v) = 0
  /\ Symbol.mu (Symbol.copy v) = false
  /\ Symbol.flags (Symbol.copy v) = 0
  /\ Symbol.visibility (Symbol.copy v) = 0
  /\ Symbol.type (Symbol.copy v) = 0
  /\ Symbol.is_placeholder (Symbol.copy v) = false
  /\ Symbol.is_dso (Symbol.copy v) = false
  /\ Symbol.is_weak (Symbol.copy v) = false
  /\ Symbol.is_undef_weak (Symbol.copy v) = false
  /\ Symbol.traced (Symbol.copy v) = false.
Proof. repeat split. Qed.

Example busy_symbol_copy :
  Symbol.copy busy_symbol = Symbol.ctor "main" 7%N
  /\ Symbol.copy busy_symbol <> busy_symbol.
Proof. split; [reflexivity | discriminate]. Qed.

(** ** Addresses *)

(** C3: [Symbol::get_addr] goes through the piece, then the section, then
    the raw value.  With a piece it is the piece's address plus the
    addend; without a piece and with an input section it is the output
    section's [sh_addr] plus the section's offset plus the value;
    otherwise it is the value.  Sums are [u64] sums. *)
Theorem Symbol_get_addr_routes (h : Heap) (s : Symbol.t) :
  (StringPieceRef.piece (Symbol.piece_ref s) <> nullptr ->
   forall p a,
     heap_pieces h !! StringPieceRef.piece (Symbol.piece_ref s) = Some p ->
     StringPiece_get_addr h p = Some a ->
     Symbol_get_addr h s
     = Some (u64_add a (StringPieceRef.addend (Symbol.piece_ref s))))
  /\ (StringPieceRef.piece (Symbol.piece_ref s) = nullptr ->
      Symbol.input_section s <> nullptr ->
      forall isec os,
        heap_isecs h !! Symbol.input_section s = Some isec ->
        InputSection.output_section isec <> nullptr ->
        heap_chunks h !! InputSection.output_section isec = Some os ->
        Symbol_get_addr h s
        = Some (u64_add
                  (u64_add (Shdr.sh_addr (OutputChunk.shdr os))
                           (InputSection.offset isec))
                  (Symbol.value s)))
  /\ (StringPieceRef.piece (Symbol.piece_ref s) = nullptr ->
      Symbol.input_section s = nullptr ->
      Symbol_get_addr h s = Some (Symbol.value s)).
Proof.
  unfold Symbol_get_addr. repeat split.
  - intros Hp p a Hlook Ha.
    unfold is_null at 1. rewrite bool_decide_eq_false_2 by exact Hp. simpl.
    rewrite (load_valid _ _ _ Hp Hlook). simpl. rewrite Ha. reflexivity.
  - intros Hp Hs isec os Hi Ho Hc.
    unfold is_null at 1. rewrite bool_decide_eq_true_2 by exact Hp. simpl.
    unfold is_null at 1. rewrite bool_decide_eq_false_2 by exact Hs. simpl.
    rewrite (load_valid _ _ _ Hs Hi). simpl.
    rewrite (load_valid _ _ _ Ho Hc). reflexivity.
  - intros Hp Hs.
    unfold is_null at 1. rewrite bool_decide_eq_true_2 by exact Hp. simpl.
    unfold is_null at 1. rewrite bool_decide_eq_true_2 by exact Hs.
    reflexivity.
Qed.

(** [StringPiece::get_addr]: the merged section's address, the winning
    input section's offset in it and the piece's own offset. *)
Lemma StringPiece_get_addr_eq (h : Heap) (p : StringPiece.t) isec ms :
  StringPiece.isec p <> nullptr ->
  heap_isecs h !! StringPiece.isec p = Some isec ->
  InputSection.merged_section isec <> nullptr ->
  heap_chunks h !! InputSection.merged_section isec = Some ms ->
  StringPiece_get_addr h p
  = Some (u64_add
            (u64_add (Shdr.sh_addr (OutputChunk.shdr ms))
                     (InputSection.merged_offset isec))
            (StringPiece.output_offset p)).
Proof.
  intros Hi Hli Hm Hlm. unfold StringPiece_get_addr.
  rewrite (load_valid _ _ _ Hi Hli). simpl.
  rewrite (load_valid _ _ _ Hm Hlm). reflexivity.
Qed.

Lemma Symbol_get_addr_routes_witness :
  Symbol_get_addr sample_heap (symbol_at 3%N 2 5%N 7) = Some 4194322
  /\ Symbol_get_addr sample_heap (symbol_at nullptr 2 5%N 7) = Some 4198471
  /\ Symbol_get_addr sample_heap (symbol_at nullptr 2 nullptr 7) = Some 7.
Proof.
  pose proof (Symbol_get_addr_routes sample_heap (symbol_at 3%N 2 5%N 7))
    as (H1 & _ & _).
  pose proof (Symbol_get_addr_routes sample_heap (symbol_at nullptr 2 5%N 7))
    as (_ & H2 & _).
  pose proof (Symbol_get_addr_routes sample_heap (symbol_at nullptr 2 nullptr 7))
    as (_ & _ & H3).
  split; [|split].
  - apply (H1 ltac:(discriminate) (StringPiece.mk "hello" 5%N 16) 4194320);
      reflexivity.
  - apply (H2 eq_refl ltac:(discriminate) (isec_in 9%N 8%N 64 0)
              (chunk_at 4198400 256 16));
      [reflexivity | discriminate | reflexivity].
  - apply (H3 eq_refl eq_refl).
Defined.

(** ** Writing into the image *)

Lemma memcpy_Some buf dst src :
  0 <= dst -> dst + Z.of_nat (length src) <= Z.of_nat (length buf) ->
  memcpy buf dst src
  = Some (take (Z.to_nat dst) buf ++ src
            ++ drop (Z.to_nat dst + length src) buf).
Proof.
  intros H0 H1. unfold memcpy. rewrite bool_decide_eq_true_2; auto.
Qed.

Lemma memcpy_inv buf dst src buf' :
  memcpy buf dst src = Some buf' ->
  0 <= dst /\ dst + Z.of_nat (length src) <= Z.of_nat (length buf)
  /\ buf' = take (Z.to_nat dst) buf ++ src
              ++ drop (Z.to_nat dst + length src) buf.
Proof.
  unfold memcpy. case_bool_decide as Hb; [|discriminate].
  intros [= <-]. destruct Hb. auto.
Qed.

Lemma memcpy_length buf dst src buf' :
  memcpy buf dst src = Some buf' -> length buf' = length buf.
Proof.
  intros (H0 & H1 & ->)%memcpy_inv.
  rewrite !length_app, length_take, length_drop. lia.
Qed.

(** Bytes before and after the destination range keep their value. *)
Lemma memcpy_lookup_outside buf dst src buf' (i : nat) :
  memcpy buf dst src = Some buf' ->
  (i < Z.to_nat dst \/ Z.to_nat dst + length src <= i)%nat ->
  buf' !! i = buf !! i.
Proof.
  intros (H0 & H1 & ->)%memcpy_inv Hi.
  assert (Hlt : length (take (Z.to_nat dst) buf) = Z.to_nat dst)
    by (rewrite length_take; lia).
  destruct Hi as [Hi | Hi].
  - rewrite lookup_app_l by lia. apply lookup_take_lt. lia.
  - rewrite lookup_app_r by lia. rewrite lookup_app_r by lia.
    rewrite lookup_drop. f_equal. lia.
Qed.

(** The destination range holds the source. *)
Lemma memcpy_range buf dst src buf' :
  memcpy buf dst src = Some buf' ->
  take (length src) (drop (Z.to_nat dst) buf') = src.
Proof.
  intros (H0 & H1 & ->)%memcpy_inv.
  rewrite drop_app_length' by (rewrite length_take; lia).
  apply take_app_length.
Qed.

(** Two adjacent copies are one copy of the concatenation. *)
Lemma memcpy_app buf dst s1 s2 buf1 :
  memcpy buf dst s1 = Some buf1 ->
  memcpy buf1 (dst + Z.of_nat (length s1)) s2 = memcpy buf dst (s1 ++ s2).
Proof.
  intros H. pose proof (memcpy_length _ _ _ _ H) as Hlen.
  apply memcpy_inv in H as (H0 & H1 & ->).
  unfold memcpy. rewrite Hlen, length_app.
  case_bool_decide as Ha; case_bool_decide as Hb; try lia; [|reflexivity].
  f_equal.
  assert (Hlt : length (take (Z.to_nat dst) buf) = Z.to_nat dst)
    by (rewrite length_take; lia).
  replace (Z.to_nat (dst + Z.of_nat (length s1)))
    with (Z.to_nat dst + length s1)%nat by lia.
  rewrite (app_assoc _ s1).
  rewrite take_app_length' by (rewrite length_app; lia).
  rewrite drop_app_add' by (rewrite length_app; lia).
  rewrite drop_drop. rewrite <- !app_assoc. do 3 f_equal.
  now rewrite Nat.add_assoc.
Qed.

Lemma u8_of_Z_value v : Z.of_N (Byte.to_N (u8_of_Z v)) = v mod 256.
Proof.
  unfold u8_of_Z. change 255 with (Z.ones 8).
  rewrite Z.land_ones by lia. change (2 ^ 8) with 256.
  pose proof (Z.mod_pos_bound v 256 ltac:(lia)) as Hb.
  destruct (Byte.of_N (Z.to_N (v mod 256))) as [b|] eqn:E.
  - apply Byte.to_of_N in E. rewrite E. lia.
  - apply Byte.of_N_None_iff in E. lia.
Qed.

Lemma le_bytes_length n v : length (le_bytes n v) = n.
Proof. revert v. induction n; intros; simpl; auto. Qed.

(** Reading the bytes back, least significant first, gives the value. *)
Lemma le_value_bytes n v :
  le_value (le_bytes n v) = v mod 2 ^ (8 * Z.of_nat n).
Proof.
  revert v. induction n as [|n IH]; intros v.
  - simpl. now rewrite Z.mod_1_r.
  - cbn [le_bytes le_value]. rewrite IH, u8_of_Z_value, Z.shiftr_div_pow2 by lia.
    replace (8 * Z.of_nat (S n)) with (8 + 8 * Z.of_nat n) by lia.
    rewrite Z.pow_add_r by lia. change (2 ^ 8) with 256.
    rewrite Z.rem_mul_r; [reflexivity | lia |].
    apply Z.pow_pos_nonneg; lia.
Qed.

(** C7: [write_entry] writes the six bytes [ff 25] and the displacement,
    least significant byte first, at the given position, and leaves every
    other byte of the buffer as it was. *)
Theorem PltSection_write_entry_bytes (mem : list byte) (p value : Z) :
  0 <= p -> p + 6 <= Z.of_nat (length mem) -> 0 <= value < u32_max ->
  exists mem' b0 b1 b2 b3,
    PltSection_write_entry mem p value = Some mem'
    /\ length mem' = length mem
    /\ take 6 (drop (Z.to_nat p) mem') = [xff; x25; b0; b1; b2; b3]
    /\ le_value [b0; b1; b2; b3] = value
    /\ (forall i : nat,
          (i < Z.to_nat p \/ Z.to_nat p + 6 <= i)%nat ->
          mem' !! i = mem !! i).
Proof.
  intros Hp Hlen Hv.
  set (body := [xff; x25] ++ le_bytes 4 value).
  assert (Hwhole : PltSection_write_entry mem p value = memcpy mem p body).
  { unfold PltSection_write_entry, store_u8, store_u32.
    rewrite (memcpy_Some mem p [u8_of_Z 255]) by (simpl; lia).
    cbn [mbind option_bind].
    erewrite (memcpy_app mem p [u8_of_Z 255] [u8_of_Z 37])
      by (apply memcpy_Some; simpl; lia).
    rewrite (memcpy_Some mem p ([u8_of_Z 255] ++ [u8_of_Z 37]))
      by (simpl; lia).
    cbn [mbind option_bind].
    replace (p + 2) with (p + Z.of_nat (length ([u8_of_Z 255] ++ [u8_of_Z 37])))
      by (simpl; lia).
    erewrite memcpy_app by (apply memcpy_Some; simpl; lia).
    reflexivity. }
  assert (Hbody : length body = 6%nat) by reflexivity.
  pose proof (memcpy_Some mem p body Hp ltac:(rewrite Hbody; lia)) as Hm.
  eexists _, (u8_of_Z value), (u8_of_Z (Z.shiftr value 8)),
    (u8_of_Z (Z.shiftr (Z.shiftr value 8) 8)),
    (u8_of_Z (Z.shiftr (Z.shiftr (Z.shiftr value 8) 8) 8)).
  rewrite Hwhole. split; [exact Hm|]. split; [|split; [|split]].
  - eapply memcpy_length; eauto.
  - exact (memcpy_range _ _ _ _ Hm).
  - change [u8_of_Z value; u8_of_Z (Z.shiftr value 8);
            u8_of_Z (Z.shiftr (Z.shiftr value 8) 8);
            u8_of_Z (Z.shiftr (Z.shiftr (Z.shiftr value 8) 8) 8)]
      with (le_bytes 4 value).
    rewrite le_value_bytes. apply Z.mod_small. exact Hv.
  - intros i Hi. eapply memcpy_lookup_outside; eauto.
Qed.

Lemma PltSection_write_entry_witness :
  exists mem' b0 b1 b2 b3,
    PltSection_write_entry sample_image 2 305419896 = Some mem'
    /\ length mem' = length sample_image
    /\ take 6 (drop (Z.to_nat 2) mem') = [xff; x25; b0; b1; b2; b3]
    /\ le_value [b0; b1; b2; b3] = 305419896
    /\ (forall i : nat,
          (i < Z.to_nat 2 \/ Z.to_nat 2 + 6 <= i)%nat ->
          mem' !! i = sample_image !! i).
Proof.
  apply (PltSection_write_entry_bytes sample_image 2 305419896).
  - lia.
  - simpl. lia.
  - unfold u32_max. lia.
Defined.

Example PltSection_write_entry_sample :
  PltSection_write_entry sample_image 2 305419896
  = Some [x90; x90; xff; x25; x78; x56; x34; x12; x90; x90].
Proof. reflexivity. Qed.

(** A slot that does not fit in the buffer is not written. *)
Example PltSection_write_entry_overrun :
  PltSection_write_entry sample_image 5 305419896 = None.
Proof. reflexivity. Qed.

(** ** The section name table *)

Lemma string_length_app (a b : string) :
  String.length (a +:+ b) = (String.length a + String.length b)%nat.
Proof. induction a; simpl; auto. Qed.

Lemma bytes_of_app (a b : string) :
  String.list_byte_of_string (a +:+ b)
  = String.list_byte_of_string a ++ String.list_byte_of_string b.
Proof.
  unfold String.list_byte_of_string.
  induction a; simpl; [reflexivity | now rewrite IHa].
Qed.

Lemma bytes_of_length (a : string) :
  length (String.list_byte_of_string a) = String.length a.
Proof.
  unfold String.list_byte_of_string. rewrite length_map.
  induction a; simpl; auto.
Qed.

Lemma string_app_assoc (a b c : string) : (a +:+ b) +:+ c = a +:+ (b +:+ c).
Proof.
  induction a as [|ch a IH]; [reflexivity|].
  change (String ch ((a +:+ b) +:+ c) = String ch (a +:+ (b +:+ c))).
  now rewrite IH.
Qed.

Lemma string_app_empty_r (a : string) : a +:+ "" = a.
Proof.
  induction a as [|ch a IH]; [reflexivity|].
  change (String ch (a +:+ "") = String ch a). now rewrite IH.
Qed.

(** The table only grows: later names are appended. *)
Lemma add_strings_contents names t :
  exists suffix,
    ShstrtabSection.contents (fst (ShstrtabSection.add_strings names t))
    = ShstrtabSection.contents t +:+ suffix.
Proof.
  revert t. induction names as [|s names IH]; intros t.
  - exists "". simpl. now rewrite string_app_empty_r.
  - cbn [ShstrtabSection.add_strings].
    destruct (ShstrtabSection.add_string s t) as [t1 off] eqn:E1.
    destruct (ShstrtabSection.add_strings names t1) as [t2 offs] eqn:E2.
    destruct (IH t1) as [suffix Hs]. rewrite E2 in Hs. simpl in Hs |- *.
    unfold ShstrtabSection.add_string in E1. injection E1 as <- _.
    simpl in Hs. exists (s +:+ NUL +:+ suffix).
    rewrite Hs. now rewrite !string_app_assoc.
Qed.

Lemma ctor_sized : ShstrtabSection.sized ShstrtabSection.ctor.
Proof. reflexivity. Qed.

Lemma add_strings_sized names t :
  ShstrtabSection.sized t ->
  ShstrtabSection.sized (fst (ShstrtabSection.add_strings names t)).
Proof.
  revert t. induction names as [|s names IH]; intros t Ht; [exact Ht|].
  cbn [ShstrtabSection.add_strings].
  destruct (ShstrtabSection.add_string s t) as [t1 off] eqn:E1.
  specialize (IH t1).
  destruct (ShstrtabSection.add_strings names t1) as [t2 offs] eqn:E2.
  simpl in *. apply IH.
  unfold ShstrtabSection.add_string in E1. injection E1 as <- _.
  reflexivity.
Qed.

(** C8: the name table starts as one NUL byte with [sh_size] 1;
    [add_string s] returns the offset at which it appends the bytes of
    [s] and a NUL, and sets [sh_size] to the length of the contents;
    whatever names are added later, [copy_to] puts the contents at
    [sh_offset] of the image, so that the returned offset is where the
    NUL-terminated name stands. *)
Theorem ShstrtabSection_name_offsets (earlier later : list string) (s : string) :
  let t0 := fst (ShstrtabSection.add_strings earlier ShstrtabSection.ctor) in
  let t1 := fst (ShstrtabSection.add_string s t0) in
  let off := snd (ShstrtabSection.add_string s t0) in
  let t2 := fst (ShstrtabSection.add_strings later t1) in
  ShstrtabSection.contents ShstrtabSection.ctor = NUL
  /\ Shdr.sh_size (OutputChunk.shdr (ShstrtabSection.chunk ShstrtabSection.ctor)) = 1
  /\ off = Z.of_nat (String.length (ShstrtabSection.contents t0))
  /\ ShstrtabSection.contents t1 = (ShstrtabSection.contents t0 +:+ s) +:+ NUL
  /\ ShstrtabSection.sized t1
  /\ ShstrtabSection.sized t2
  /\ forall (placed : ShstrtabSection.t) (buf : list byte),
       ShstrtabSection.contents placed = ShstrtabSection.contents t2 ->
       let at_ := Shdr.sh_offset (OutputChunk.shdr (ShstrtabSection.chunk placed)) in
       0 <= at_ ->
       at_ + Z.of_nat (String.length (ShstrtabSection.contents t2))
         <= Z.of_nat (length buf) ->
       exists buf',
         ShstrtabSection.copy_to placed buf = Some buf'
         /\ take (String.length (ShstrtabSection.contents t2))
                 (drop (Z.to_nat at_) buf')
            = String.list_byte_of_string (ShstrtabSection.contents t2)
         /\ take (S (String.length s)) (drop (Z.to_nat (at_ + off)) buf')
            = String.list_byte_of_string s ++ [x00].
Proof.
  intros t0 t1 off t2.
  assert (Hs0 : ShstrtabSection.sized t0)
    by (apply add_strings_sized, ctor_sized).
  assert (Hs1 : ShstrtabSection.sized t1) by reflexivity.
  assert (Hc1 : ShstrtabSection.contents t1
                = (ShstrtabSection.contents t0 +:+ s) +:+ NUL) by reflexivity.
  split; [reflexivity|]. split; [reflexivity|]. split; [reflexivity|].
  split; [exact Hc1|]. split; [exact Hs1|].
  split; [apply add_strings_sized; exact Hs1|].
  intros placed buf Hplaced at_ Hat Hfit.
  destruct (add_strings_contents later t1) as [suffix Hsuf].
  fold t2 in Hsuf. rewrite Hc1 in Hsuf.
  unfold ShstrtabSection.copy_to. fold at_. rewrite Hplaced.
  set (C := String.list_byte_of_string (ShstrtabSection.contents t2)) in *.
  assert (HlenC : length C = String.length (ShstrtabSection.contents t2))
    by apply bytes_of_length.
  rewrite memcpy_Some by (rewrite ?HlenC; lia).
  eexists. split; [reflexivity|].
  assert (Htake : length (take (Z.to_nat at_) buf) = Z.to_nat at_)
    by (rewrite length_take; lia).
  split.
  - rewrite drop_app_length' by lia. rewrite <- HlenC. apply take_app_length.
  - assert (HC : C = String.list_byte_of_string (ShstrtabSection.contents t0)
                       ++ (String.list_byte_of_string s ++ [x00])
                       ++ String.list_byte_of_string suffix).
    { unfold C. rewrite Hsuf, !bytes_of_app. rewrite <- !app_assoc.
      reflexivity. }
    replace (Z.to_nat (at_ + off))
      with (Z.to_nat at_ + String.length (ShstrtabSection.contents t0))%nat
      by (subst off; simpl; lia).
    rewrite drop_app_add' by lia.
    rewrite HC. rewrite <- !app_assoc.
    rewrite drop_app_length' by (now rewrite bytes_of_length).
    rewrite (app_assoc (String.list_byte_of_string s) [x00]).
    apply take_app_length'. rewrite length_app, bytes_of_length. simpl. lia.
Qed.

Lemma ShstrtabSection_name_offsets_witness :
  exists buf',
    ShstrtabSection.copy_to sample_shstrtab (replicate 24 x90) = Some buf'
    /\ take 18 (drop 2 buf')
       = String.list_byte_of_string
           (NUL +:+ ".text" +:+ NUL +:+ ".data" +:+ NUL +:+ ".bss" +:+ NUL)
    /\ take 6 (drop 9 buf') = String.list_byte_of_string ".data" ++ [x00].
Proof.
  destruct (ShstrtabSection_name_offsets [".text"] [".bss"] ".data")
    as (_ & _ & _ & _ & _ & _ & H).
  apply (H sample_shstrtab (replicate 24 x90)).
  - reflexivity.
  - simpl. lia.
  - simpl. lia.
Defined.

Example ShstrtabSection_offsets_sample :
  snd (ShstrtabSection.add_strings [".text"; ".data"; ".bss"]
         ShstrtabSection.ctor) = [1; 7; 13].
Proof. reflexivity. Qed.

(** ** The interpreter path *)

(** C9: the [.interp] chunk has [sh_size] 28, and [copy_to] writes the 28
    bytes of the path, the terminating NUL included, at [sh_offset] and
    nothing else; the chunk is among the chunks of the image only if a
    dynamic segment exists, so never in static mode. *)
Theorem InterpSection_bytes :
  Shdr.sh_size (OutputChunk.shdr InterpSection.ctor) = 28
  /\ (forall (this : OutputChunk.t) (buf : list byte),
        let at_ := Shdr.sh_offset (OutputChunk.shdr this) in
        0 <= at_ -> at_ + 28 <= Z.of_nat (length buf) ->
        exists buf',
          InterpSection.copy_to this buf = Some buf'
          /\ length buf' = length buf
          /\ take 28 (drop (Z.to_nat at_) buf')
             = String.list_byte_of_string "/lib64/ld-linux-x86-64.so.2" ++ [x00]
          /\ (forall i : nat,
                (i < Z.to_nat at_ \/ Z.to_nat at_ + 28 <= i)%nat ->
                buf' !! i = buf !! i))
  /\ (forall c : Config,
        KInterp ∈ synthetic_chunks c -> has_dynamic_segment c = true)
  /\ (forall c : Config, is_static c = true -> KInterp ∉ synthetic_chunks c).
Proof.
  split; [reflexivity|]. split; [|split].
  - intros this buf at_ H0 H1. unfold InterpSection.copy_to. fold at_.
    set (src := take (Z.to_nat InterpSection.sizeof_path)
                     (String.list_byte_of_string InterpSection.path)).
    assert (Hsrc : length src = 28%nat) by reflexivity.
    pose proof (memcpy_Some buf at_ src H0 ltac:(rewrite Hsrc; lia)) as Hm.
    eexists. split; [exact Hm|]. split; [|split].
    + eapply memcpy_length; eauto.
    + exact (memcpy_range _ _ _ _ Hm).
    + intros i Hi. eapply memcpy_lookup_outside; eauto.
  - intros c. unfold synthetic_chunks.
    destruct (has_dynamic_segment c); [reflexivity|].
    simpl. intros Hin. repeat (apply elem_of_cons in Hin as [Hin|Hin]; [discriminate|]).
    now apply elem_of_nil in Hin.
  - intros c Hs. unfold synthetic_chunks, has_dynamic_segment. rewrite Hs.
    simpl. intros Hin.
    repeat (apply elem_of_cons in Hin as [Hin|Hin]; [discriminate|]).
    now apply elem_of_nil in Hin.
Qed.

Lemma InterpSection_bytes_witness :
  (exists buf',
     InterpSection.copy_to sample_interp (replicate 32 x90) = Some buf'
     /\ length buf' = length (replicate 32 x90)
     /\ take 28 (drop (Z.to_nat 1) buf')
        = String.list_byte_of_string "/lib64/ld-linux-x86-64.so.2" ++ [x00]
     /\ (forall i : nat,
           (i < Z.to_nat 1 \/ Z.to_nat 1 + 28 <= i)%nat ->
           buf' !! i = replicate 32 x90 !! i))
  /\ KInterp ∉ synthetic_chunks (mkConfig "a.out" false true).
Proof.
  destruct InterpSection_bytes as (_ & Hcopy & _ & Hstatic).
  split.
  - apply (Hcopy sample_interp (replicate 32 x90)); simpl; lia.
  - apply Hstatic. reflexivity.
Defined.

(** ** Fatal errors *)

Lemma count_lines_app (a b : string) :
  count_lines (a +:+ b) = (count_lines a + count_lines b)%nat.
Proof.
  induction a as [|c a IH]; [reflexivity|].
  change (count_lines (String c (a +:+ b))
          = (count_lines (String c a) + count_lines b)%nat).
  cbn [count_lines]. destruct (Ascii.eqb c LF); rewrite IH; reflexivity.
Qed.

(** What [error] leaves behind when the mutex is free. *)
Lemma error_exits {A : Type} (msg : string) (w : World) :
  error_mu w = false ->
  @error A msg w = Exited 1 (mkWorld ((errs w +:+ msg) +:+ endl) true).
Proof. intros Hmu. unfold error. rewrite Hmu. reflexivity. Qed.

(** A run that ends with status 0 has returned, and has written nothing
    to the error stream. *)
Lemma exit_zero_returned {C : Type} (p : Proc C) (w0 : World) :
  exits_through_error p ->
  exit_status (p w0) = Some 0 ->
  exists c w1, p w0 = Returned c w1 /\ errs w1 = errs w0.
Proof.
  intros Hp. revert w0.
  induction Hp as [A a | A msg | A B m k Hm IHm Hk IHk]; intros w0 Hz.
  - exists a, w0. split; reflexivity.
  - unfold error in Hz. destruct (error_mu w0); discriminate.
  - unfold bind in *. destruct (m w0) as [a w1 | st w1 | w1] eqn:Em.
    + destruct (IHm w0) as (a' & w1' & Heq & Herrs).
      { rewrite Em. reflexivity. }
      rewrite Em in Heq. injection Heq as -> ->.
      destruct (IHk a' w1' Hz) as (c & w2 & Hk2 & Herrs2).
      exists c, w2. split; [exact Hk2 | congruence].
    + simpl in Hz. injection Hz as ->.
      destruct (IHm w0) as (a' & w1' & Heq & _).
      { rewrite Em. reflexivity. }
      rewrite Em in Heq. discriminate.
    + discriminate.
Qed.

(** C6, as the code has it: with the mutex free, [error msg] takes it,
    appends the message and one line feed to the error stream, and ends
    the process with status 1; it does not return, so nothing that
    follows the call runs, and the exit status is not 0; a run that
    exits only through [error] ends with status 0 only when it returned
    without reporting anything.  The text
    written is one line exactly when the message holds no line feed; in
    general it completes one line more than the message has line
    feeds. *)
Theorem error_is_fatal {A B : Type} (msg : string) (w : World)
    (k : A -> Proc B) :
  error_mu w = false ->
  exists w',
    @error A msg w = Exited 1 w'
    /\ error_mu w' = true
    /\ errs w' = (errs w +:+ msg) +:+ endl
    /\ count_lines (errs w')
       = (count_lines (errs w) + count_lines msg + 1)%nat
    /\ (count_lines msg = 0%nat ->
        count_lines (errs w') = S (count_lines (errs w)))
    /\ (forall a w'', @error A msg w <> Returned a w'')
    /\ bind (error msg) k w = Exited 1 w'
    /\ exit_status (bind (error msg) k w) = Some 1
    /\ exit_status (bind (error msg) k w) <> Some 0
    /\ (forall (C : Type) (p : Proc C) (w0 : World),
          exits_through_error p ->
          exit_status (p w0) = Some 0 ->
          exists c w1, p w0 = Returned c w1 /\ errs w1 = errs w0).
Proof.
  intros Hmu. eexists. split; [apply error_exits, Hmu|].
  assert (Hb : bind (@error A msg) k w
               = Exited 1 (mkWorld ((errs w +:+ msg) +:+ endl) true)).
  { unfold bind. now rewrite (error_exits msg w Hmu). }
  assert (Hc : count_lines ((errs w +:+ msg) +:+ endl)
               = (count_lines (errs w) + count_lines msg + 1)%nat).
  { rewrite !count_lines_app. reflexivity. }
  repeat split.
  - exact Hc.
  - intros Hz. cbn [errs]. rewrite Hc, Hz. lia.
  - intros a w''. rewrite (error_exits msg w Hmu). discriminate.
  - exact Hb.
  - rewrite Hb. reflexivity.
  - rewrite Hb. discriminate.
  - intros C p w0 Hp. now apply exit_zero_returned.
Qed.

Lemma error_is_fatal_witness :
  exists w',
    @error unit "undefined symbol: foo" (mkWorld "" false) = Exited 1 w'
    /\ error_mu w' = true
    /\ errs w' = ("" +:+ "undefined symbol: foo") +:+ endl
    /\ count_lines (errs w')
       = (count_lines "" + count_lines "undefined symbol: foo" + 1)%nat
    /\ (count_lines "undefined symbol: foo" = 0%nat ->
        count_lines (errs w') = S (count_lines ""))
    /\ (forall a w'',
          @error unit "undefined symbol: foo" (mkWorld "" false)
          <> Returned a w'')
    /\ bind (error "undefined symbol: foo") (fun _ : unit => ret 0)
            (mkWorld "" false) = Exited 1 w'
    /\ exit_status (bind (error "undefined symbol: foo")
                         (fun _ : unit => ret 0) (mkWorld "" false)) = Some 1
    /\ exit_status (bind (error "undefined symbol: foo")
                         (fun _ : unit => ret 0) (mkWorld "" false)) <> Some 0
    /\ (forall (C : Type) (p : Proc C) (w0 : World),
          exits_through_error p ->
          exit_status (p w0) = Some 0 ->
          exists c w1, p w0 = Returned c w1 /\ errs w1 = errs w0).
Proof.
  apply (error_is_fatal "undefined symbol: foo" (mkWorld "" false)
           (fun _ : unit => ret 0)).
  reflexivity.
Defined.

(** A message that holds a line feed, as [llvm::toString] builds from
    several errors, is printed as more than one line. *)
Lemma error_one_line_counterexample :
  ~ (forall (msg : string) (w : World),
       error_mu w = false ->
       exists w',
         @error unit msg w = Exited 1 w'
         /\ count_lines (errs w') = S (count_lines (errs w))).
Proof.
  intros H.
  destruct (H ("a.o: bad header" +:+ endl +:+ "b.o: bad header")
              (mkWorld "" false) eq_refl) as (w' & Hw & Hn).
  vm_compute in Hw. injection Hw as <-. vm_compute in Hn. discriminate.
Qed.

(** With the mutex held the call waits; the holder is exiting. *)
Example error_waits :
  @error unit "late" (mkWorld "first" true) = Blocked (mkWorld "first" true).
Proof. reflexivity. Qed.

(** [check] passes a value on and turns an error into a fatal one. *)
Lemma check_error {T : Type} (message : string) (w : World) :
  error_mu w = false ->
  exit_status (@check T (inl message) w) = Some 1.
Proof. intros Hmu. simpl. now rewrite (error_exits message w Hmu). Qed.

Lemma check_value {T : Type} (v : T) (w : World) :
  @check T (inr v) w = Returned v w.
Proof. reflexivity. Qed.

(** ** The interning table *)

Section ConcurrentMapFacts.
Context {V : Type} `{!CopyConstructible V}.
Implicit Types (m : ConcurrentMap.t V) (key : string) (val : V).

Lemma find_Some_lookup key m i :
  ConcurrentMap.find key m = Some i -> exists v, m !! i = Some (key, v).
Proof.
  revert i. induction m as [|[k v] m IH]; intros i; simpl; [discriminate|].
  case_decide as Hk.
  - intros [= <-]. subst k. eauto.
  - destruct (ConcurrentMap.find key m) as [j|]; simpl; [|discriminate].
    intros [= <-]. simpl. eauto.
Qed.

Lemma find_None_keys key m :
  ConcurrentMap.find key m = None <-> key ∉ m.*1.
Proof.
  induction m as [|[k v] m IH]; simpl.
  - split; [intros _; apply not_elem_of_nil | reflexivity].
  - case_decide as Hk.
    + subst k. split; [discriminate|]. intros Hn. exfalso. apply Hn. left.
    + rewrite not_elem_of_cons.
      destruct (ConcurrentMap.find key m) as [j|]; simpl.
      * split; [discriminate|]. intros [_ Hn]. apply IH in Hn. discriminate.
      * split; [|reflexivity]. intros _. split; [congruence|]. now apply IH.
Qed.

Lemma find_app_l key m ext i :
  ConcurrentMap.find key m = Some i ->
  ConcurrentMap.find key (m ++ ext) = Some i.
Proof.
  revert i. induction m as [|[k v] m IH]; intros i; simpl; [discriminate|].
  case_decide; [auto|].
  destruct (ConcurrentMap.find key m) as [j|]; simpl; [|discriminate].
  intros [= <-]. now rewrite (IH j eq_refl).
Qed.

Lemma find_app_new key m v :
  ConcurrentMap.find key m = None ->
  ConcurrentMap.find key (m ++ [(key, v)]) = Some (length m).
Proof.
  induction m as [|[k v'] m IH]; simpl.
  - intros _. now rewrite decide_True.
  - case_decide; [discriminate|].
    destruct (ConcurrentMap.find key m) as [j|]; simpl; [discriminate|].
    intros _. now rewrite IH.
Qed.

(** An insert only ever links a node at the end. *)
Lemma insert_prefix key val m :
  m `prefix_of` fst (ConcurrentMap.insert key val m).
Proof.
  unfold ConcurrentMap.insert.
  destruct (ConcurrentMap.find key m); simpl;
    [reflexivity | now apply prefix_app_r].
Qed.

Lemma inserts_prefix ops m : m `prefix_of` ConcurrentMap.inserts ops m.
Proof.
  revert m. induction ops as [|[k v] ops IH]; intros m; [reflexivity|].
  cbn [ConcurrentMap.inserts foldl]. etrans; [|apply IH].
  apply insert_prefix.
Qed.

(** The node that [insert] returns holds the key. *)
Lemma insert_find key val m :
  ConcurrentMap.find key (fst (ConcurrentMap.insert key val m))
  = Some (snd (ConcurrentMap.insert key val m)).
Proof.
  unfold ConcurrentMap.insert.
  destruct (ConcurrentMap.find key m) as [i|] eqn:E; simpl;
    [exact E | now apply find_app_new].
Qed.

(** Inserting a key that has a node changes nothing and returns it. *)
Lemma insert_present key val m i :
  ConcurrentMap.find key m = Some i ->
  ConcurrentMap.insert key val m = (m, i).
Proof. intros E. unfold ConcurrentMap.insert. now rewrite E. Qed.

Lemma find_prefix key m m' i :
  m `prefix_of` m' ->
  ConcurrentMap.find key m = Some i -> ConcurrentMap.find key m' = Some i.
Proof. intros [ext ->]. apply find_app_l. Qed.

Lemma deref_prefix m m' p :
  m `prefix_of` m' -> is_Some (ConcurrentMap.deref m p) ->
  ConcurrentMap.deref m' p = ConcurrentMap.deref m p.
Proof.
  intros [ext ->] [v Hv]. unfold ConcurrentMap.deref in *.
  destruct (m !! p) as [kv|] eqn:E; [|discriminate].
  now rewrite (lookup_app_l_Some _ _ _ _ E).
Qed.

(** No two nodes of a table built by inserts carry the same key. *)
Lemma insert_NoDup key val m :
  NoDup m.*1 -> NoDup (fst (ConcurrentMap.insert key val m)).*1.
Proof.
  intros Hnd. unfold ConcurrentMap.insert.
  destruct (ConcurrentMap.find key m) as [i|] eqn:E; simpl; [exact Hnd|].
  rewrite fmap_app. apply NoDup_app. split; [exact Hnd|]. split.
  - intros x Hx Hin. simpl in Hin. apply list_elem_of_singleton in Hin.
    subst x. now apply find_None_keys in E.
  - simpl. apply NoDup_singleton.
Qed.

Lemma inserts_NoDup ops m :
  NoDup m.*1 -> NoDup (ConcurrentMap.inserts ops m).*1.
Proof.
  revert m. induction ops as [|[k v] ops IH]; intros m Hnd; [exact Hnd|].
  cbn [ConcurrentMap.inserts foldl]. apply IH. now apply insert_NoDup.
Qed.

Lemma filter_key_absent key m :
  key ∉ m.*1 -> filter (fun kv : string * V => kv.1 = key) m = [].
Proof.
  induction m as [|[k v] m IH]; intros Hn; [reflexivity|].
  rewrite fmap_cons in Hn. cbn [fst] in Hn.
  apply not_elem_of_cons in Hn as [Hk Hn].
  rewrite filter_cons. cbn [fst]. rewrite decide_False by congruence. auto.
Qed.

Lemma count_NoDup key m :
  NoDup m.*1 -> key ∈ m.*1 -> ConcurrentMap.count key m = 1%nat.
Proof.
  unfold ConcurrentMap.count.
  induction m as [|[k v] m IH]; intros Hnd Hin.
  - simpl in Hin. now apply elem_of_nil in Hin.
  - rewrite fmap_cons in Hnd, Hin. cbn [fst] in Hnd, Hin.
    apply NoDup_cons in Hnd as [Hk Hnd].
    rewrite filter_cons. cbn [fst]. case_decide as Hd.
    + subst k. cbn [length]. now rewrite filter_key_absent.
    + apply IH; [exact Hnd|]. apply elem_of_cons in Hin as [Hin|Hin]; congruence.
Qed.

(** The heart of the contract: once [insert] has returned a pointer for a
    key, every later insert of that key, after any other inserts, returns
    the same pointer, changes nothing, and the value behind the pointer
    is the one that was there. *)
Lemma insert_stable before after key val val' :
  let m0 := ConcurrentMap.inserts before ConcurrentMap.empty in
  let m1 := fst (ConcurrentMap.insert key val m0) in
  let p := snd (ConcurrentMap.insert key val m0) in
  let m2 := ConcurrentMap.inserts after m1 in
  (ConcurrentMap.find key m0 = None ->
   ConcurrentMap.deref m0 p = None
   /\ ConcurrentMap.deref m1 p = Some (copy_ctor val))
  /\ (forall i, ConcurrentMap.find key m0 = Some i -> p = i /\ m1 = m0)
  /\ is_Some (ConcurrentMap.deref m1 p)
  /\ ConcurrentMap.insert key val' m2 = (m2, p)
  /\ ConcurrentMap.deref m2 p = ConcurrentMap.deref m1 p
  /\ ConcurrentMap.count key m2 = 1%nat.
Proof.
  intros m0 m1 p m2.
  assert (Hfind1 : ConcurrentMap.find key m1 = Some p) by apply insert_find.
  assert (Hpre : m1 `prefix_of` m2) by apply inserts_prefix.
  assert (Hfind2 : ConcurrentMap.find key m2 = Some p)
    by (eapply find_prefix; eauto).
  assert (Hsome : is_Some (ConcurrentMap.deref m1 p)).
  { destruct (find_Some_lookup _ _ _ Hfind1) as [v Hv].
    unfold ConcurrentMap.deref. rewrite Hv. simpl. eauto. }
  split; [|split; [|split; [|split; [|split]]]].
  - intros Hnone. subst m1 p. unfold ConcurrentMap.insert. rewrite Hnone.
    simpl. unfold ConcurrentMap.deref. split.
    + now rewrite lookup_ge_None_2.
    + rewrite lookup_app_r by lia. now rewrite Nat.sub_diag.
  - intros i Hi. subst m1 p. now rewrite (insert_present _ _ _ _ Hi).
  - exact Hsome.
  - now apply insert_present.
  - now apply deref_prefix.
  - apply count_NoDup.
    + apply inserts_NoDup, insert_NoDup, inserts_NoDup. apply NoDup_nil_2.
    + destruct (find_Some_lookup _ _ _ Hfind2) as [v Hv].
      apply list_elem_of_fmap. exists (key, v). split; [reflexivity|].
      eapply list_elem_of_lookup_2; eauto.
Qed.
End ConcurrentMapFacts.

Lemma Symbol_copy_ctor (name : string) (file : ptr) :
  copy_ctor (Symbol.ctor name file) = Symbol.ctor name file.
Proof. reflexivity. Qed.

Lemma StringPiece_copy_id (p : StringPiece.t) : copy_ctor p = p.
Proof. now destruct p. Qed.

(** C2: [insert] hands out stable pointers.  Inserts take effect one at
    a time, in some order; concurrent callers are the inserts before and
    after the one looked at.  The first insert of a key links a node with
    a copy of the given value and returns its address, which was not in
    use before.  Every later insert of that key, whatever its value and
    whatever was inserted in between, returns that address and leaves the
    table, and so the stored value, as it is; the key has exactly one
    node.  For [Symbol::intern] the node holds the fresh symbol of that
    name, and for pieces the stored piece, its offset included, is the
    one given first. *)
Theorem ConcurrentMap_insert_stable_pointer :
  (forall (V : Type) (C : CopyConstructible V)
          (before after : list (string * V)) (key : string) (val val' : V),
     let m0 := ConcurrentMap.inserts before ConcurrentMap.empty in
     let m1 := fst (ConcurrentMap.insert key val m0) in
     let p := snd (ConcurrentMap.insert key val m0) in
     let m2 := ConcurrentMap.inserts after m1 in
     (ConcurrentMap.find key m0 = None ->
      ConcurrentMap.deref m0 p = None
      /\ ConcurrentMap.deref m1 p = Some (copy_ctor val))
     /\ (forall i, ConcurrentMap.find key m0 = Some i -> p = i /\ m1 = m0)
     /\ is_Some (ConcurrentMap.deref m1 p)
     /\ ConcurrentMap.insert key val' m2 = (m2, p)
     /\ ConcurrentMap.deref m2 p = ConcurrentMap.deref m1 p
     /\ ConcurrentMap.count key m2 = 1%nat)
  /\ (forall (before after : list (string * Symbol.t)) (name : string),
        let m0 := ConcurrentMap.inserts before ConcurrentMap.empty in
        let m1 := fst (Symbol_intern name m0) in
        let p := snd (Symbol_intern name m0) in
        let m2 := ConcurrentMap.inserts after m1 in
        (ConcurrentMap.find name m0 = None ->
         ConcurrentMap.deref m1 p = Some (Symbol.ctor name nullptr))
        /\ Symbol_intern name m2 = (m2, p)
        /\ ConcurrentMap.deref m2 p = ConcurrentMap.deref m1 p
        /\ ConcurrentMap.count name m2 = 1%nat)
  /\ (forall (before after : list (string * StringPiece.t))
             (piece again : StringPiece.t),
        StringPiece.data again = StringPiece.data piece ->
        let key := StringPiece.data piece in
        let m0 := ConcurrentMap.inserts before ConcurrentMap.empty in
        let m1 := fst (ConcurrentMap.insert key piece m0) in
        let p := snd (ConcurrentMap.insert key piece m0) in
        let m2 := ConcurrentMap.inserts after m1 in
        (ConcurrentMap.find key m0 = None ->
         ConcurrentMap.deref m1 p = Some piece)
        /\ ConcurrentMap.insert (StringPiece.data again) again m2 = (m2, p)
        /\ ConcurrentMap.deref m2 p = ConcurrentMap.deref m1 p
        /\ ConcurrentMap.count key m2 = 1%nat).
Proof.
  split; [|split].
  - intros V C before after key val val'. apply insert_stable.
  - intros before after name m0 m1 p m2.
    destruct (insert_stable before after name (Symbol.ctor name nullptr)
                (Symbol.ctor name nullptr)) as (H1 & _ & _ & H4 & H5 & H6).
    split; [|split; [|split]].
    + intros Hnone. destruct (H1 Hnone) as [_ Hd]. exact Hd.
    + exact H4.
    + exact H5.
    + exact H6.
  - intros before after piece again Hdata key m0 m1 p m2.
    destruct (insert_stable before after key piece again)
      as (H1 & _ & _ & H4 & H5 & H6).
    split; [|split; [|split]].
    + intros Hnone. destruct (H1 Hnone) as [_ Hd].
      rewrite StringPiece_copy_id in Hd. exact Hd.
    + rewrite Hdata. exact H4.
    + exact H5.
    + exact H6.
Qed.

Lemma ConcurrentMap_insert_stable_pointer_witness :
  let m0 := ConcurrentMap.inserts interned_before ConcurrentMap.empty in
  let m1 := fst (Symbol_intern "main" m0) in
  let p := snd (Symbol_intern "main" m0) in
  let m2 := ConcurrentMap.inserts interned_after m1 in
  p = 2%nat
  /\ ConcurrentMap.deref m1 p = Some (Symbol.ctor "main" nullptr)
  /\ Symbol_intern "main" m2 = (m2, p)
  /\ ConcurrentMap.deref m2 p = ConcurrentMap.deref m1 p
  /\ ConcurrentMap.count "main" m2 = 1%nat.
Proof.
  intros m0 m1 p m2.
  destruct ConcurrentMap_insert_stable_pointer as (_ & H & _).
  destruct (H interned_before interned_after "main") as (H1 & H2 & H3 & H4).
  split; [reflexivity|]. split; [|split; [|split]].
  - apply H1. reflexivity.
  - exact H2.
  - exact H3.
  - exact H4.
Defined.

(** The same run, evaluated: four nodes, and the busy symbol offered by
    the second insert of "main" is not stored. *)
Example ConcurrentMap_insert_sample :
  let m2 :=
    ConcurrentMap.inserts interned_after
      (fst (Symbol_intern "main"
              (ConcurrentMap.inserts interned_before ConcurrentMap.empty))) in
  ConcurrentMap.size m2 = 4%nat
  /\ ConcurrentMap.deref m2 2 = Some (Symbol.ctor "main" nullptr).
Proof. split; reflexivity. Qed.

(** ** Binding strong definitions *)

Section ResolverFacts.
Import Resolver.
Implicit Types (f g A B : ObjectFile) (e : Esym) (sym : Sym)
  (table : gmap string Sym) (s : string)
  (call : ObjectFile * Esym) (schedule : list (ObjectFile * Esym)).













End ResolverFacts.





(** Two strong definitions of which neither is COMDAT-discardable end
    the run, whichever arrives first. *)
Example duplicate_symbol_is_fatal :
  let f0 := Resolver.mkFile 0 true [Resolver.mkEsym "foo" Resolver.Strong false] in
  let f1 := Resolver.mkFile 1 true [Resolver.mkEsym "foo" Resolver.Strong false] in
  Resolver.resolve (Resolver.binding_calls [f0; f1]) ∅
  = inl "duplicate symbol: foo"
  /\ Resolver.resolve (reverse (Resolver.binding_calls [f0; f1])) ∅
     = inl "duplicate symbol: foo".
Proof. split; reflexivity. Qed.

(** ** Rounding up to an alignment *)

Lemma align_to_value_general (v k : Z) :
  0 <= k < 64 ->
  align_to_value v (2 ^ k)
  = (v + 2 ^ k - 1) mod u64_max - ((v + 2 ^ k - 1) mod u64_max) mod 2 ^ k.
Proof.
  intros Hk. unfold align_to_value.
  assert (Hpos : 0 < 2 ^ k) by (apply Z.pow_pos_nonneg; lia).
  set (x := (v + 2 ^ k - 1) mod u64_max).
  assert (Hx : 0 <= x < u64_max)
    by (apply Z.mod_pos_bound; unfold u64_max; lia).
  replace (2 ^ k - 1) with (Z.ones k) by (rewrite Z.ones_equiv; lia).
  unfold u64_max in *. rewrite <- (Z.land_ones (Z.lnot _) 64) by lia.
  rewrite Z.land_assoc, (Z.land_comm x), <- Z.land_assoc.
  rewrite (Z.land_ones x 64) by lia. rewrite (Z.mod_small x) by exact Hx.
  rewrite Z.land_comm, <- Z.ldiff_land, Z.ldiff_ones_r by lia.
  rewrite Z.shiftl_mul_pow2, Z.shiftr_div_pow2 by lia.
  pose proof (Z.div_mod x (2 ^ k) ltac:(lia)). lia.
Qed.

Lemma align_to_value_aligned (v k : Z) :
  0 <= k < 64 ->
  0 <= align_to_value v (2 ^ k) < u64_max
  /\ align_to_value v (2 ^ k) mod 2 ^ k = 0.
Proof.
  intros Hk. rewrite align_to_value_general by exact Hk.
  assert (Hpos : 0 < 2 ^ k) by (apply Z.pow_pos_nonneg; lia).
  set (x := (v + 2 ^ k - 1) mod u64_max).
  assert (Hx : 0 <= x < u64_max)
    by (apply Z.mod_pos_bound; unfold u64_max; lia).
  pose proof (Z.mod_pos_bound x (2 ^ k) Hpos) as Hxm.
  pose proof (Z.div_mod x (2 ^ k) ltac:(lia)) as Hd.
  split.
  - pose proof (Z.div_pos x (2 ^ k) ltac:(lia) Hpos). nia.
  - replace (x - x mod 2 ^ k) with (x / 2 ^ k * 2 ^ k) by lia.
    apply Z.mod_mul. lia.
Qed.

Lemma align_to_value_bounds (v k : Z) :
  0 <= k < 64 -> 0 <= v -> v + 2 ^ k <= u64_max ->
  v <= align_to_value v (2 ^ k) < v + 2 ^ k
  /\ align_to_value v (2 ^ k) mod 2 ^ k = 0.
Proof.
  intros Hk Hv Hfit. split; [|now apply align_to_value_aligned].
  rewrite align_to_value_general by exact Hk.
  assert (Hpos : 0 < 2 ^ k) by (apply Z.pow_pos_nonneg; lia).
  rewrite (Z.mod_small (v + 2 ^ k - 1)) by lia.
  pose proof (Z.mod_pos_bound (v + 2 ^ k - 1) (2 ^ k) Hpos). lia.
Qed.

(** The assertion holds for the powers of two below 2^32 and fails for
    those from 2^32 on, of which [__builtin_popcount] sees no bit. *)
Lemma builtin_popcount_pow2 (k : Z) :
  0 <= k < 32 -> builtin_popcount (2 ^ k) = 1.
Proof.
  intros Hk. rewrite <- (Z2Nat.id k) by lia.
  assert (Hn : (Z.to_nat k < 32)%nat) by lia.
  generalize dependent (Z.to_nat k). clear. intros n Hn.
  do 32 (destruct n as [|n]; [vm_compute; reflexivity|]). lia.
Qed.

Lemma builtin_popcount_high (k : Z) :
  32 <= k < 64 -> builtin_popcount (2 ^ k) = 0.
Proof.
  intros Hk. unfold builtin_popcount, u32_max.
  replace k with ((k - 32) + 32) by lia. rewrite Z.pow_add_r by lia.
  rewrite Z.mod_mul by lia. reflexivity.
Qed.

Lemma align_to_Some (v k : Z) :
  0 <= k < 32 -> align_to v (2 ^ k) = Some (align_to_value v (2 ^ k)).
Proof.
  intros Hk. unfold align_to.
  now rewrite bool_decide_eq_true_2 by (now apply builtin_popcount_pow2).
Qed.

Example align_to_samples :
  align_to 13 8 = Some 16 /\ align_to 16 8 = Some 16
  /\ align_to 0 1 = Some 0 /\ align_to 5 1 = Some 5
  /\ align_to 5 0 = None /\ align_to 5 12 = None.
Proof. repeat split. Qed.

(** ** Offsets of merged pieces *)








Example merged_heap_offsets :
  (h' ← assign_offsets 8%N merged_heap;
   p3 ← load (heap_pieces h') 3%N;
   p4 ← load (heap_pieces h') 4%N;
   ms ← load (heap_chunks h') 8%N;
   a ← StringPiece_get_addr h' p4;
   Some (StringPiece.output_offset p3, StringPiece.output_offset p4,
         Shdr.sh_size (OutputChunk.shdr ms), a))
  = Some (0, 8, 14, 4194312).
Proof. reflexivity. Qed.

(** * Further properties of the header *)

(** ** The interning table: lookup, size, first writer *)

Section ConcurrentMapMore.
Context {V : Type} `{!CopyConstructible V}.
Implicit Types (m : list (string * V)) (key : string) (val : V).

Lemma find_app_other key k m v :
  k <> key ->
  ConcurrentMap.find k (m ++ [(key, v)]) = ConcurrentMap.find k m.
Proof.
  intros Hne. induction m as [|[k' v'] m IH]; simpl.
  - now rewrite decide_False by congruence.
  - case_decide; [reflexivity|]. now rewrite IH.
Qed.

Lemma find_lt key m i :
  ConcurrentMap.find key m = Some i -> (i < length m)%nat.
Proof.
  intros H. destruct (find_Some_lookup _ _ _ H) as [v Hv].
  eapply lookup_lt_Some; eauto.
Qed.

Lemma get_app_present key m ext v :
  ConcurrentMap_get key m = Some v ->
  ConcurrentMap_get key (m ++ ext) = Some v.
Proof.
  unfold ConcurrentMap_get.
  destruct (ConcurrentMap.find key m) as [i|] eqn:E; [|discriminate].
  cbn [mbind option_bind]. rewrite (find_app_l _ _ ext _ E).
  cbn [mbind option_bind]. unfold ConcurrentMap.deref.
  rewrite lookup_app_l by (eapply find_lt; eauto). auto.
Qed.

Lemma get_present key m i :
  ConcurrentMap.find key m = Some i -> is_Some (ConcurrentMap_get key m).
Proof.
  intros E. unfold ConcurrentMap_get. rewrite E. cbn [mbind option_bind].
  destruct (find_Some_lookup _ _ _ E) as [v Hv].
  unfold ConcurrentMap.deref. rewrite Hv. simpl. eauto.
Qed.

Lemma get_absent key m :
  ConcurrentMap.find key m = None -> ConcurrentMap_get key m = None.
Proof. intros E. unfold ConcurrentMap_get. now rewrite E. Qed.

Lemma get_insert key val m :
  ConcurrentMap_get key (fst (ConcurrentMap.insert key val m))
  = Some (default (copy_ctor val) (ConcurrentMap_get key m)).
Proof.
  unfold ConcurrentMap.insert.
  destruct (ConcurrentMap.find key m) as [i|] eqn:E; cbn [fst].
  - destruct (get_present _ _ _ E) as [v Hv]. now rewrite Hv.
  - rewrite (get_absent _ _ E). cbn [default].
    unfold ConcurrentMap_get. rewrite (find_app_new _ _ _ E).
    cbn [mbind option_bind]. unfold ConcurrentMap.deref.
    rewrite lookup_app_r by lia. now rewrite Nat.sub_diag.
Qed.

Lemma get_insert_other key k val m :
  k <> key ->
  ConcurrentMap.find k (fst (ConcurrentMap.insert key val m))
  = ConcurrentMap.find k m
  /\ ConcurrentMap_get k (fst (ConcurrentMap.insert key val m))
     = ConcurrentMap_get k m.
Proof.
  intros Hne. unfold ConcurrentMap.insert.
  destruct (ConcurrentMap.find key m) as [i|] eqn:E; cbn [fst]; [auto|].
  split; [now apply find_app_other|].
  unfold ConcurrentMap_get. rewrite find_app_other by exact Hne.
  destruct (ConcurrentMap.find k m) as [j|] eqn:Ek; [|reflexivity].
  cbn [mbind option_bind]. unfold ConcurrentMap.deref.
  rewrite lookup_app_l by (eapply find_lt; eauto). reflexivity.
Qed.

(** X1: after [insert] the key maps, through the returned pointer, to the
    value it had before or else to a copy of the given value; every
    other key keeps its pointer and its value; the table grows by one
    node exactly when the key was new. *)
Theorem ConcurrentMap_insert_lookup m key val :
  let m' := fst (ConcurrentMap.insert key val m) in
  let p := snd (ConcurrentMap.insert key val m) in
  ConcurrentMap.find key m' = Some p
  /\ ConcurrentMap_get key m'
     = Some (default (copy_ctor val) (ConcurrentMap_get key m))
  /\ (forall k, k <> key ->
        ConcurrentMap.find k m' = ConcurrentMap.find k m
        /\ ConcurrentMap_get k m' = ConcurrentMap_get k m)
  /\ ConcurrentMap.size m'
     = (ConcurrentMap.size m
        + if ConcurrentMap.find key m is Some _ then 0 else 1)%nat.
Proof.
  intros m' p. split; [apply insert_find|]. split; [apply get_insert|].
  split; [intros k Hk; now apply get_insert_other|].
  subst m'. unfold ConcurrentMap.insert, ConcurrentMap.size.
  destruct (ConcurrentMap.find key m); cbn [fst]; [lia|].
  rewrite length_app. simpl. lia.
Qed.

Lemma keys_insert key val m :
  (list_to_set (fst (ConcurrentMap.insert key val m)).*1 : gset string)
  = list_to_set m.*1 ∪ {[key]}.
Proof.
  unfold ConcurrentMap.insert.
  destruct (ConcurrentMap.find key m) as [i|] eqn:E; cbn [fst].
  - destruct (find_Some_lookup _ _ _ E) as [v Hv].
    assert (key ∈ m.*1).
    { apply list_elem_of_fmap. exists (key, v). split; [reflexivity|].
      eapply list_elem_of_lookup_2; eauto. }
    apply set_eq. intros x. rewrite elem_of_union, elem_of_singleton.
    rewrite elem_of_list_to_set. split; [auto|]. intros [Hx| ->]; auto.
  - rewrite fmap_app, list_to_set_app_L. simpl.
    now rewrite (right_id_L ∅ (∪) ({[key]} : gset string)).
Qed.

Lemma inserts_cons k (v : V) ops m :
  ConcurrentMap.inserts ((k, v) :: ops) m
  = ConcurrentMap.inserts ops (fst (ConcurrentMap.insert k v m)).
Proof. reflexivity. Qed.

Lemma keys_inserts ops m :
  (list_to_set (ConcurrentMap.inserts ops m).*1 : gset string)
  = list_to_set m.*1 ∪ list_to_set ops.*1.
Proof.
  revert m. induction ops as [|[k v] ops IH]; intros m.
  - simpl. now rewrite (right_id_L ∅ (∪)).
  - rewrite inserts_cons, IH, keys_insert, fmap_cons, list_to_set_cons.
    cbn [fst]. apply set_eq. intros x. rewrite !elem_of_union. tauto.
Qed.

Lemma size_inserts ops :
  ConcurrentMap.size (ConcurrentMap.inserts ops ConcurrentMap.empty)
  = size (list_to_set ops.*1 : gset string).
Proof.
  unfold ConcurrentMap.size.
  rewrite <- (length_fmap fst).
  rewrite <- (size_list_to_set (C := gset string))
    by (apply inserts_NoDup, NoDup_nil_2).
  rewrite keys_inserts. simpl. f_equal. apply set_eq. intros x.
  rewrite elem_of_union, elem_of_empty. tauto.
Qed.

(** X2: the size of a table built by inserts is the number of distinct
    keys inserted; so it does not depend on the values, on repetitions,
    or on the order in which the inserts took effect. *)
Theorem ConcurrentMap_size_distinct_keys (ops ops' : list (string * V)) :
  ConcurrentMap.size (ConcurrentMap.inserts ops ConcurrentMap.empty)
  = size (list_to_set ops.*1 : gset string)
  /\ (ops.*1 ≡ₚ ops'.*1 ->
      ConcurrentMap.size (ConcurrentMap.inserts ops ConcurrentMap.empty)
      = ConcurrentMap.size (ConcurrentMap.inserts ops' ConcurrentMap.empty)).
Proof.
  split; [apply size_inserts|].
  intros Hperm. rewrite !size_inserts. f_equal.
  apply set_eq. intros k. rewrite !elem_of_list_to_set. now rewrite Hperm.
Qed.

Lemma get_inserts key ops m :
  ConcurrentMap_get key (ConcurrentMap.inserts ops m)
  = match ConcurrentMap_get key m with
    | Some v => Some v
    | None => copy_ctor <$> first_value key ops
    end.
Proof.
  revert m. induction ops as [|[k v] ops IH]; intros m.
  - simpl. now destruct (ConcurrentMap_get key m).
  - rewrite inserts_cons, IH. cbn [first_value].
    case_decide as Hk.
    + subst k. rewrite get_insert.
      now destruct (ConcurrentMap_get key m).
    + destruct (get_insert_other k key v m) as [_ ->]; [congruence|].
      reflexivity.
Qed.

(** X3: the first writer wins.  After any run of inserts into an empty
    table a key maps to a copy of the value of the first insert of that
    key, and to nothing when no insert had that key. *)
Theorem ConcurrentMap_first_insert_wins (ops : list (string * V)) key :
  ConcurrentMap_get key (ConcurrentMap.inserts ops ConcurrentMap.empty)
  = copy_ctor <$> first_value key ops.
Proof. now rewrite get_inserts. Qed.

(** Two keys that were handed the same pointer are the same key. *)
Lemma find_injective m a b p :
  ConcurrentMap.find a m = Some p -> ConcurrentMap.find b m = Some p -> a = b.
Proof.
  intros Ha Hb. destruct (find_Some_lookup _ _ _ Ha) as [va Hva].
  destruct (find_Some_lookup _ _ _ Hb) as [vb Hvb]. congruence.
Qed.
End ConcurrentMapMore.

(** ** Interned symbols *)

Lemma interns_snoc names name map :
  interns (names ++ [name]) map = fst (Symbol_intern name (interns names map)).
Proof. unfold interns. now rewrite foldl_snoc. Qed.

(** Every node of a table built by [Symbol::intern] holds the fresh
    symbol of its key. *)
Lemma interns_fresh names :
  forall k s, (k, s) ∈ interns names ConcurrentMap.empty ->
              s = Symbol.ctor k nullptr.
Proof.
  induction names as [|name names IH] using rev_ind; intros k s Hin.
  - now apply elem_of_nil in Hin.
  - rewrite interns_snoc in Hin. unfold Symbol_intern, ConcurrentMap.insert in Hin.
    destruct (ConcurrentMap.find name (interns names ConcurrentMap.empty));
      cbn [fst] in Hin; [now apply IH|].
    apply elem_of_app in Hin as [Hin|Hin]; [now apply IH|].
    apply list_elem_of_singleton in Hin. now injection Hin as -> ->.
Qed.

(** X4: [Symbol::intern] names symbols apart.  In a table built by
    interning, two names get the same pointer exactly when they are the
    same name, and the symbol behind the pointer of a name is the fresh
    placeholder of that name: its [name] is the key and it has no file. *)
Theorem Symbol_intern_injective (names : list string) (a b : string) :
  let m0 := interns names ConcurrentMap.empty in
  let m1 := fst (Symbol_intern a m0) in
  let pa := snd (Symbol_intern a m0) in
  let m2 := fst (Symbol_intern b m1) in
  let pb := snd (Symbol_intern b m1) in
  (pa = pb <-> a = b)
  /\ ConcurrentMap.deref m2 pa = Some (Symbol.ctor a nullptr)
  /\ ConcurrentMap.deref m2 pb = Some (Symbol.ctor b nullptr)
  /\ Symbol.name <$> ConcurrentMap.deref m2 pa = Some a
  /\ Symbol.file <$> ConcurrentMap.deref m2 pa = Some nullptr.
Proof.
  intros m0 m1 pa m2 pb.
  assert (Hm2 : m2 = interns ((names ++ [a]) ++ [b]) ConcurrentMap.empty)
    by (now rewrite !interns_snoc).
  assert (Hfa1 : ConcurrentMap.find a m1 = Some pa) by apply insert_find.
  assert (Hfb : ConcurrentMap.find b m2 = Some pb) by apply insert_find.
  assert (Hfa : ConcurrentMap.find a m2 = Some pa).
  { eapply find_prefix; [|exact Hfa1]. apply insert_prefix. }
  assert (Hda : ConcurrentMap.deref m2 pa = Some (Symbol.ctor a nullptr)).
  { destruct (find_Some_lookup _ _ _ Hfa) as [s Hs].
    unfold ConcurrentMap.deref. rewrite Hs. simpl. f_equal.
    apply (interns_fresh ((names ++ [a]) ++ [b])). rewrite <- Hm2.
    eapply list_elem_of_lookup_2; eauto. }
  assert (Hdb : ConcurrentMap.deref m2 pb = Some (Symbol.ctor b nullptr)).
  { destruct (find_Some_lookup _ _ _ Hfb) as [s Hs].
    unfold ConcurrentMap.deref. rewrite Hs. simpl. f_equal.
    apply (interns_fresh ((names ++ [a]) ++ [b])). rewrite <- Hm2.
    eapply list_elem_of_lookup_2; eauto. }
  split; [|split; [exact Hda | split; [exact Hdb|]]].
  - split.
    + intros Heq. rewrite <- Heq in Hfb. eapply find_injective; eauto.
    + intros <-. congruence.
  - rewrite Hda. split; reflexivity.
Qed.

Lemma ConcurrentMap_insert_lookup_witness :
  let m := ConcurrentMap.inserts interned_before ConcurrentMap.empty in
  let m' := fst (ConcurrentMap.insert "main" busy_symbol m) in
  ConcurrentMap_get "main" m' = Some (Symbol.ctor "main" 7%N)
  /\ ConcurrentMap.find "printf" m' = ConcurrentMap.find "printf" m
  /\ ConcurrentMap_get "printf" m' = ConcurrentMap_get "printf" m
  /\ ConcurrentMap.size m' = 3%nat.
Proof.
  intros m m'.
  destruct (ConcurrentMap_insert_lookup m "main" busy_symbol)
    as (_ & Hget & Hother & Hsize).
  destruct (Hother "printf" ltac:(discriminate)) as [Hf Hg].
  split; [exact Hget|]. split; [exact Hf|]. split; [exact Hg | exact Hsize].
Defined.

Lemma ConcurrentMap_size_distinct_keys_witness :
  ConcurrentMap.size
    (ConcurrentMap.inserts inserts_one_order ConcurrentMap.empty)
  = ConcurrentMap.size
      (ConcurrentMap.inserts inserts_other_order ConcurrentMap.empty).
Proof.
  destruct (ConcurrentMap_size_distinct_keys inserts_one_order
              inserts_other_order) as [_ H].
  apply H. simpl.
  change ["main"; "exit"; "main"] with (["main"] ++ ["exit"; "main"]).
  apply Permutation_cons_append.
Defined.

Lemma Symbol_intern_injective_witness :
  let m0 := interns ["_start"; "main"] ConcurrentMap.empty in
  let m1 := fst (Symbol_intern "main" m0) in
  let pa := snd (Symbol_intern "main" m0) in
  let pb := snd (Symbol_intern "exit" m1) in
  pa <> pb.
Proof.
  intros m0 m1 pa pb.
  destruct (Symbol_intern_injective ["_start"; "main"] "main" "exit")
    as ([H _] & _).
  intros Heq. specialize (H Heq). discriminate.
Defined.

(** ** Rounding up: least multiple, fixed points, order, wrap-around *)

Lemma multiple_gap (a m r : Z) :
  0 < a -> m mod a = 0 -> r mod a = 0 -> m < r -> m + a <= r.
Proof.
  intros Ha Hm Hr Hlt.
  apply Z.mod_divide in Hm as [qm ->]; [|lia].
  apply Z.mod_divide in Hr as [qr ->]; [|lia].
  apply Z.mul_lt_mono_pos_r in Hlt; [|exact Ha].
  replace (qm * a + a) with ((qm + 1) * a) by lia.
  apply Z.mul_le_mono_nonneg_r; lia.
Qed.

(** X5: for a power of two [align] below 2^32, which passes the
    assertion, and as long as [val + align] does not pass 2^64,
    [align_to val align] returns the least multiple of [align] that is
    at least [val]; it adds less than [align]. *)
Theorem align_to_least_multiple (v k : Z) :
  0 <= k < 32 -> 0 <= v -> v + 2 ^ k <= u64_max ->
  exists r,
    align_to v (2 ^ k) = Some r
    /\ v <= r < v + 2 ^ k
    /\ r mod 2 ^ k = 0
    /\ (forall m, v <= m -> m mod 2 ^ k = 0 -> r <= m).
Proof.
  intros Hk Hv Hfit.
  destruct (align_to_value_bounds v k ltac:(lia) Hv Hfit) as [Hb Hmod].
  exists (align_to_value v (2 ^ k)).
  split; [now apply align_to_Some|].
  split; [exact Hb|]. split; [exact Hmod|].
  intros m Hm Hmm.
  assert (Hpos : 0 < 2 ^ k) by (apply Z.pow_pos_nonneg; lia).
  destruct (Z_lt_le_dec m (align_to_value v (2 ^ k))) as [Hlt|Hle];
    [|exact Hle].
  pose proof (multiple_gap (2 ^ k) m (align_to_value v (2 ^ k))
                Hpos Hmm Hmod Hlt).
  lia.
Qed.

Lemma align_to_value_fixed (v k : Z) :
  0 <= k < 64 -> 0 <= v -> v + 2 ^ k <= u64_max -> v mod 2 ^ k = 0 ->
  align_to_value v (2 ^ k) = v.
Proof.
  intros Hk Hv Hfit Hmod.
  destruct (align_to_value_bounds v k Hk Hv Hfit) as [Hb Hm].
  assert (Hpos : 0 < 2 ^ k) by (apply Z.pow_pos_nonneg; lia).
  destruct (Z.eq_dec (align_to_value v (2 ^ k)) v) as [Heq|Hne];
    [exact Heq|].
  pose proof (multiple_gap (2 ^ k) v (align_to_value v (2 ^ k))
                Hpos Hmod Hm).
  lia.
Qed.

Lemma u64_max_multiple (k : Z) : 0 <= k < 64 -> u64_max mod 2 ^ k = 0.
Proof.
  intros Hk. unfold u64_max.
  replace 64 with ((64 - k) + k) by lia.
  rewrite Z.pow_add_r by lia. apply Z.mod_mul.
  apply Z.pow_nonzero; lia.
Qed.

(** X6: for a power of two [align] below 2^32, a value that is a
    multiple of the alignment is returned as it is, and rounding twice
    is rounding once. *)
Theorem align_to_idempotent (v k : Z) :
  0 <= k < 32 -> 0 <= v -> v + 2 ^ k <= u64_max ->
  (v mod 2 ^ k = 0 -> align_to v (2 ^ k) = Some v)
  /\ exists r,
       align_to v (2 ^ k) = Some r /\ align_to r (2 ^ k) = Some r.
Proof.
  intros Hk Hv Hfit. split.
  - intros Hmod. rewrite align_to_Some by exact Hk.
    f_equal. apply align_to_value_fixed; [lia | assumption..].
  - destruct (align_to_value_bounds v k ltac:(lia) Hv Hfit) as [Hb Hm].
    assert (Hpos : 0 < 2 ^ k) by (apply Z.pow_pos_nonneg; lia).
    exists (align_to_value v (2 ^ k)).
    split; [now apply align_to_Some|].
    rewrite align_to_Some by exact Hk. f_equal.
    apply align_to_value_fixed; [lia | lia | | exact Hm].
    pose proof (u64_max_multiple k ltac:(lia)) as Hmax.
    pose proof (multiple_gap (2 ^ k) (align_to_value v (2 ^ k)) u64_max
                  Hpos Hm Hmax).
    lia.
Qed.

(** X7: for a power of two [align] below 2^32, rounding up keeps the
    order of the values. *)
Theorem align_to_monotone (v w k : Z) :
  0 <= k < 32 -> 0 <= v -> v <= w -> w + 2 ^ k <= u64_max ->
  exists r r',
    align_to v (2 ^ k) = Some r /\ align_to w (2 ^ k) = Some r' /\ r <= r'.
Proof.
  intros Hk Hv Hvw Hfit.
  destruct (align_to_value_bounds w k ltac:(lia) ltac:(lia) Hfit) as [Hb Hm].
  destruct (align_to_value_bounds v k ltac:(lia) Hv ltac:(lia)) as [Hb' Hm'].
  assert (Hpos : 0 < 2 ^ k) by (apply Z.pow_pos_nonneg; lia).
  exists (align_to_value v (2 ^ k)), (align_to_value w (2 ^ k)).
  split; [now apply align_to_Some|]. split; [now apply align_to_Some|].
  destruct (Z_lt_le_dec (align_to_value w (2 ^ k)) (align_to_value v (2 ^ k)))
    as [Hlt|Hle]; [|exact Hle].
  pose proof (multiple_gap (2 ^ k) _ _ Hpos Hm Hm' Hlt). lia.
Qed.

(** X8: for a power of two [align] below 2^32 the result is always a
    [u64] and a multiple of the alignment, but past the last multiple
    below 2^64 the sum wraps: a value within [align - 1] of 2^64 is
    rounded to 0, below itself.  For a power of two from 2^32 on the
    assertion, whose population count reads 32 bits, fails and nothing
    is returned. *)
Theorem align_to_wraps (v k : Z) :
  0 <= k < 64 ->
  (k < 32 ->
   exists r,
     align_to v (2 ^ k) = Some r
     /\ 0 <= r < u64_max /\ r mod 2 ^ k = 0
     /\ (u64_max - 2 ^ k < v < u64_max -> r = 0))
  /\ (32 <= k -> align_to v (2 ^ k) = None).
Proof.
  intros Hk. split.
  - intros Hk32. exists (align_to_value v (2 ^ k)).
    split; [apply align_to_Some; lia|].
    destruct (align_to_value_aligned v k Hk) as [Hr Hm].
    split; [exact Hr|]. split; [exact Hm|].
    intros Hv. rewrite align_to_value_general by exact Hk.
    assert (Hpos : 0 < 2 ^ k) by (apply Z.pow_pos_nonneg; lia).
    assert (Hka : 2 ^ k < u64_max)
      by (unfold u64_max; apply Z.pow_lt_mono_r; lia).
    set (x := (v + 2 ^ k - 1) mod u64_max).
    assert (Hxv : x = v + 2 ^ k - 1 - u64_max).
    { unfold x. symmetry. apply Z.mod_unique with 1; lia. }
    rewrite (Z.mod_small x) by lia. lia.
  - intros Hk32. unfold align_to.
    now rewrite builtin_popcount_high by lia.
Qed.

Lemma align_to_least_multiple_witness :
  exists r,
    align_to 13 (2 ^ 3) = Some r
    /\ 13 <= r < 13 + 2 ^ 3
    /\ r mod 2 ^ 3 = 0
    /\ (forall m, 13 <= m -> m mod 2 ^ 3 = 0 -> r <= m).
Proof.
  apply (align_to_least_multiple 13 3); [lia | lia | unfold u64_max; lia].
Defined.

Lemma align_to_idempotent_witness :
  (24 mod 2 ^ 3 = 0 -> align_to 24 (2 ^ 3) = Some 24)
  /\ exists r,
       align_to 24 (2 ^ 3) = Some r /\ align_to r (2 ^ 3) = Some r.
Proof.
  apply (align_to_idempotent 24 3); [lia | lia | unfold u64_max; lia].
Defined.

Lemma align_to_monotone_witness :
  exists r r',
    align_to 13 (2 ^ 4) = Some r /\ align_to 4097 (2 ^ 4) = Some r'
    /\ r <= r'.
Proof.
  apply (align_to_monotone 13 4097 4); [lia | lia | lia | unfold u64_max; lia].
Defined.

Lemma align_to_wraps_witness :
  (exists r, align_to 18446744073709551615 (2 ^ 12) = Some r /\ r = 0)
  /\ align_to 4096 (2 ^ 32) = None.
Proof.
  split.
  - destruct (align_to_wraps 18446744073709551615 12 ltac:(lia)) as [H _].
    destruct (H ltac:(lia)) as (r & Hr & _ & _ & H0).
    exists r. split; [exact Hr|]. apply H0. unfold u64_max. lia.
  - destruct (align_to_wraps 4096 32 ltac:(lia)) as [_ H].
    apply H. lia.
Defined.

(** ** Copies into the image: ranges, order, overwriting *)

(** Every byte of the image after a copy. *)
Lemma memcpy_lookup buf dst src buf' (i : nat) :
  memcpy buf dst src = Some buf' ->
  buf' !! i
  = if bool_decide (Z.to_nat dst <= i < Z.to_nat dst + length src)%nat
    then src !! (i - Z.to_nat dst)%nat
    else buf !! i.
Proof.
  intros H. case_bool_decide as Hi.
  - apply memcpy_inv in H as (H0 & H1 & ->).
    assert (Hlt : length (take (Z.to_nat dst) buf) = Z.to_nat dst)
      by (rewrite length_take; lia).
    rewrite lookup_app_r by lia. rewrite Hlt.
    rewrite lookup_app_l by lia. reflexivity.
  - eapply memcpy_lookup_outside; [exact H | lia].
Qed.

Lemma memcpy_fits buf dst src :
  0 <= dst -> dst + Z.of_nat (length src) <= Z.of_nat (length buf) ->
  exists buf', memcpy buf dst src = Some buf' /\ length buf' = length buf.
Proof.
  intros H0 H1. pose proof (memcpy_Some buf dst src H0 H1) as H.
  eexists. split; [exact H|]. eapply memcpy_length; eauto.
Qed.

(** Copies into ranges that do not meet can be made in either order. *)
Lemma memcpy_commute buf d1 s1 d2 s2 :
  0 <= d1 -> d1 + Z.of_nat (length s1) <= d2 ->
  d2 + Z.of_nat (length s2) <= Z.of_nat (length buf) ->
  exists buf',
    (b ← memcpy buf d1 s1; memcpy b d2 s2) = Some buf'
    /\ (b ← memcpy buf d2 s2; memcpy b d1 s1) = Some buf'
    /\ take (length s1) (drop (Z.to_nat d1) buf') = s1
    /\ take (length s2) (drop (Z.to_nat d2) buf') = s2.
Proof.
  intros H0 H1 H2.
  destruct (memcpy_fits buf d1 s1 H0 ltac:(lia)) as (b1 & Hb1 & Hl1).
  destruct (memcpy_fits b1 d2 s2 ltac:(lia) ltac:(lia)) as (b12 & Hb12 & Hl12).
  destruct (memcpy_fits buf d2 s2 ltac:(lia) ltac:(lia)) as (b2 & Hb2 & Hl2).
  destruct (memcpy_fits b2 d1 s1 H0 ltac:(lia)) as (b21 & Hb21 & Hl21).
  assert (Heq : b12 = b21).
  { apply list_eq. intros i.
    rewrite (memcpy_lookup _ _ _ _ i Hb12), (memcpy_lookup _ _ _ _ i Hb1).
    rewrite (memcpy_lookup _ _ _ _ i Hb21), (memcpy_lookup _ _ _ _ i Hb2).
    repeat case_bool_decide; try reflexivity; lia. }
  exists b12. rewrite Hb1, Hb2. cbn [mbind option_bind].
  split; [exact Hb12|]. split; [now rewrite Heq|]. split.
  - rewrite Heq. eapply memcpy_range; eauto.
  - eapply memcpy_range; eauto.
Qed.

(** A copy over a range replaces what an earlier copy put there. *)
Lemma memcpy_overwrite buf d s1 s2 b1 :
  length s1 = length s2 ->
  memcpy buf d s1 = Some b1 -> memcpy b1 d s2 = memcpy buf d s2.
Proof.
  intros Hlen Hb1. pose proof (memcpy_length _ _ _ _ Hb1) as Hl.
  pose proof (memcpy_inv _ _ _ _ Hb1) as (H0 & H1 & _).
  destruct (memcpy_fits b1 d s2 H0 ltac:(lia)) as (b12 & Hb12 & _).
  destruct (memcpy_fits buf d s2 H0 ltac:(lia)) as (b2 & Hb2 & _).
  rewrite Hb12, Hb2. f_equal. apply list_eq. intros i.
  rewrite (memcpy_lookup _ _ _ _ i Hb12), (memcpy_lookup _ _ _ _ i Hb1).
  rewrite (memcpy_lookup _ _ _ _ i Hb2).
  repeat case_bool_decide; try reflexivity; lia.
Qed.

(** The three stores of [write_entry] are one copy of six bytes. *)
Lemma write_entry_memcpy mem p value :
  PltSection_write_entry mem p value
  = memcpy mem p ([xff; x25] ++ le_bytes 4 value).
Proof.
  unfold PltSection_write_entry, store_u8, store_u32.
  destruct (memcpy mem p [u8_of_Z 255]) as [m1|] eqn:E1; cbn [mbind option_bind].
  - pose proof (memcpy_app mem p [u8_of_Z 255] [u8_of_Z 37] m1 E1) as E2.
    cbn [length] in E2. change (Z.of_nat 1) with 1 in E2. rewrite E2.
    destruct (memcpy mem p ([u8_of_Z 255] ++ [u8_of_Z 37])) as [m2|] eqn:E3;
      cbn [mbind option_bind].
    + pose proof (memcpy_app mem p _ (le_bytes 4 value) m2 E3) as E4.
      cbn [length app] in E4. change (Z.of_nat 2) with 2 in E4.
      rewrite E4. reflexivity.
    + unfold memcpy in E3 |- *. cbn [length app] in *.
      case_bool_decide; [discriminate|].
      rewrite bool_decide_eq_false_2; [reflexivity|]. simpl. lia.
  - unfold memcpy in E1 |- *. cbn [length] in *.
    case_bool_decide; [discriminate|].
    rewrite bool_decide_eq_false_2; [reflexivity|]. simpl. lia.
Qed.

(** X9: PLT slots that do not overlap are independent.  Writing two
    entries six or more bytes apart gives the same image in either
    order, and both slots hold their own six bytes afterwards. *)
Theorem PltSection_write_entry_disjoint (mem : list byte) (p q v1 v2 : Z) :
  0 <= p -> p + 6 <= q -> q + 6 <= Z.of_nat (length mem) ->
  exists mem',
    (m ← PltSection_write_entry mem p v1; PltSection_write_entry m q v2)
    = Some mem'
    /\ (m ← PltSection_write_entry mem q v2; PltSection_write_entry m p v1)
       = Some mem'
    /\ take 6 (drop (Z.to_nat p) mem') = [xff; x25] ++ le_bytes 4 v1
    /\ take 6 (drop (Z.to_nat q) mem') = [xff; x25] ++ le_bytes 4 v2.
Proof.
  intros Hp Hpq Hq.
  destruct (memcpy_commute mem p ([xff; x25] ++ le_bytes 4 v1)
              q ([xff; x25] ++ le_bytes 4 v2) Hp)
    as (mem' & H12 & H21 & Hs1 & Hs2); [simpl; lia | simpl; lia|].
  exists mem'. rewrite (write_entry_memcpy mem p v1).
  rewrite (write_entry_memcpy mem q v2).
  split; [|split; [|split; [exact Hs1 | exact Hs2]]].
  - destruct (memcpy mem p _) as [m|]; [|discriminate].
    cbn [mbind option_bind] in *. now rewrite write_entry_memcpy.
  - destruct (memcpy mem q _) as [m|]; [|discriminate].
    cbn [mbind option_bind] in *. now rewrite write_entry_memcpy.
Qed.

(** X10: a slot written twice holds the second entry: writing an entry
    over another gives the image that writing the later one alone
    gives. *)
Theorem PltSection_write_entry_overwrite (mem : list byte) (p v1 v2 : Z) :
  0 <= p -> p + 6 <= Z.of_nat (length mem) ->
  (m ← PltSection_write_entry mem p v1; PltSection_write_entry m p v2)
  = PltSection_write_entry mem p v2
  /\ is_Some (PltSection_write_entry mem p v2).
Proof.
  intros Hp Hfit. rewrite (write_entry_memcpy mem p v1).
  destruct (memcpy_fits mem p ([xff; x25] ++ le_bytes 4 v1) Hp
              ltac:(simpl; lia)) as (m1 & Hm1 & _).
  rewrite Hm1. cbn [mbind option_bind]. rewrite !write_entry_memcpy.
  split.
  - apply (memcpy_overwrite mem p ([xff; x25] ++ le_bytes 4 v1)); auto.
  - destruct (memcpy_fits mem p ([xff; x25] ++ le_bytes 4 v2) Hp
                ltac:(simpl; lia)) as (m2 & Hm2 & _).
    rewrite Hm2. eauto.
Qed.

Lemma PltSection_write_entry_disjoint_witness :
  exists mem',
    (m ← PltSection_write_entry (replicate 16 x90) 1 7;
     PltSection_write_entry m 8 9) = Some mem'
    /\ (m ← PltSection_write_entry (replicate 16 x90) 8 9;
        PltSection_write_entry m 1 7) = Some mem'
    /\ take 6 (drop (Z.to_nat 1) mem') = [xff; x25] ++ le_bytes 4 7
    /\ take 6 (drop (Z.to_nat 8) mem') = [xff; x25] ++ le_bytes 4 9.
Proof.
  apply (PltSection_write_entry_disjoint (replicate 16 x90) 1 8 7 9);
    simpl; lia.
Defined.

Lemma PltSection_write_entry_overwrite_witness :
  (m ← PltSection_write_entry sample_image 2 7;
   PltSection_write_entry m 2 9)
  = PltSection_write_entry sample_image 2 9
  /\ is_Some (PltSection_write_entry sample_image 2 9).
Proof.
  apply (PltSection_write_entry_overwrite sample_image 2 7 9); simpl; lia.
Defined.

(** ** Counters *)

Lemma inc_all_cons enabled d deltas c :
  Counter.inc_all enabled (d :: deltas) c
  = Counter.inc_all enabled deltas (Counter.inc_delta enabled d c).
Proof. reflexivity. Qed.

Lemma inc_all_enabled deltas c :
  Counter.value (Counter.inc_all true deltas c) mod u32_max
  = (Counter.value c + foldr Z.add 0 deltas) mod u32_max
  /\ Counter.name (Counter.inc_all true deltas c) = Counter.name c.
Proof.
  revert c. induction deltas as [|d deltas IH]; intros c.
  - simpl. split; [f_equal; lia | reflexivity].
  - rewrite inc_all_cons. cbn [foldr].
    destruct (IH (Counter.inc_delta true d c)) as [Hv Hn].
    split; [|exact Hn]. rewrite Hv. cbn [Counter.inc_delta Counter.value].
    rewrite Zplus_mod_idemp_l. f_equal. lia.
Qed.

Lemma inc_all_range deltas c :
  0 <= Counter.value c < u32_max ->
  0 <= Counter.value (Counter.inc_all true deltas c) < u32_max.
Proof.
  revert c. induction deltas as [|d deltas IH]; intros c Hc; [exact Hc|].
  rewrite inc_all_cons.
  apply IH. cbn [Counter.inc_delta Counter.value].
  apply Z.mod_pos_bound. unfold u32_max. lia.
Qed.

(** X11: an enabled counter adds up modulo 2^32: after any run of
    [inc(delta)] its value is the start plus the sum of the deltas,
    reduced modulo 2^32, so at 2^32 - 1 one [inc()] gives 0; a disabled
    counter ignores every [inc], while [set] stores its argument
    whether counting is enabled or not. *)
Theorem Counter_inc_adds_up (deltas : list Z) (c : Counter.t) (v : Z) :
  0 <= Counter.value c < u32_max ->
  Counter.value (Counter.inc_all true deltas c)
  = (Counter.value c + foldr Z.add 0 deltas) mod u32_max
  /\ Counter.inc true c = Counter.inc_delta true 1 c
  /\ (Counter.value c = u32_max - 1 -> Counter.value (Counter.inc true c) = 0)
  /\ Counter.inc_all false deltas c = c
  /\ Counter.inc false c = c
  /\ Counter.value (Counter.inc_all false deltas (Counter.set v c)) = v.
Proof.
  intros Hc.
  assert (Hoff : forall c', Counter.inc_all false deltas c' = c').
  { induction deltas as [|d deltas IH]; intros c'; [reflexivity|].
    rewrite inc_all_cons. apply IH. }
  split; [|split; [reflexivity | split; [|split; [apply Hoff | split]]]].
  - destruct (inc_all_enabled deltas c) as [Hv _].
    rewrite <- Hv. symmetry. apply Z.mod_small. now apply inc_all_range.
  - intros Hmax. cbn [Counter.inc Counter.value]. rewrite Hmax.
    replace (u32_max - 1 + 1) with (1 * u32_max) by lia.
    apply Z.mod_mul. unfold u32_max. lia.
  - reflexivity.
  - now rewrite Hoff.
Qed.

Lemma Counter_inc_adds_up_witness :
  Counter.value
    (Counter.inc_all true [1; 4294967295; 7] (Counter.mk "files" 5))
  = (5 + foldr Z.add 0 [1; 4294967295; 7]) mod u32_max.
Proof.
  destruct (Counter_inc_adds_up [1; 4294967295; 7] (Counter.mk "files" 5) 0)
    as [H _]; [simpl; unfold u32_max; lia | exact H].
Defined.

(** ** Output sections: the registry and emptiness *)

Lemma ctors_snoc args a r :
  OutputSection.ctors (args ++ [a]) r
  = OutputSection.ctor a.1.1.1 a.1.1.2 a.1.2 a.2 (OutputSection.ctors args r).
Proof. unfold OutputSection.ctors. now rewrite foldl_snoc. Qed.

Lemma ctors_registered args :
  NoDup args.*1.*1.*1 ->
  OutputSection_registered args
    (OutputSection.ctors args OutputSection.no_instances).
Proof.
  induction args as [|a args IH] using rev_ind; intros Hnd.
  - split; [reflexivity|]. intros i this name flags type Hi.
    now rewrite lookup_nil in Hi.
  - rewrite !fmap_app in Hnd. apply NoDup_app in Hnd as (Hnd & Hfresh & _).
    destruct (IH Hnd) as [Hinst Hobjs]. rewrite ctors_snoc.
    destruct a as [[[this0 name0] flags0] type0]. cbn [fst snd] in *.
    set (r := OutputSection.ctors args OutputSection.no_instances) in *.
    split.
    + cbn [OutputSection.ctor OutputSection.instances]. rewrite Hinst.
      now rewrite !fmap_app.
    + intros i this name flags type Hi.
      cbn [OutputSection.ctor OutputSection.objects].
      apply lookup_app_Some in Hi as [Hi | [Hge Hi]].
      * destruct (Hobjs i this name flags type Hi) as (o & Ho & Hrest).
        exists o. split; [|exact Hrest].
        rewrite lookup_insert_ne; [exact Ho|].
        intros <-. apply (Hfresh this0); [|left].
        apply list_elem_of_fmap. exists (this0, name). split; [reflexivity|].
        apply list_elem_of_fmap. exists (this0, name, flags). split; [reflexivity|].
        apply list_elem_of_fmap. exists (this0, name, flags, type).
        split; [reflexivity|]. eapply list_elem_of_lookup_2; eauto.
      * apply list_lookup_singleton_Some in Hi as [Hi0 Heq].
        injection Heq as <- <- <- <-.
        eexists. rewrite lookup_insert_eq. split; [reflexivity|].
        cbn [OutputSection.idx OutputSection.chunk]. rewrite Hinst.
        rewrite !length_fmap. replace i with (length args) by lia.
        repeat split.
Qed.

(** X12: the registry of output sections is dense.  After constructing
    sections at distinct addresses, [instances] lists them in order of
    construction, and the section at position [i] carries [idx] [i]
    (as long as there are fewer than 2^32), the name, flags and type it
    was given and alignment 1. *)
Theorem OutputSection_registry_dense (args : list (ptr * string * Z * Z)) :
  NoDup args.*1.*1.*1 ->
  Z.of_nat (length args) < u32_max ->
  let r := OutputSection.ctors args OutputSection.no_instances in
  length (OutputSection.instances r) = length args
  /\ forall (i : nat) this name flags type,
       args !! i = Some (this, name, flags, type) ->
       OutputSection.instances r !! i = Some this
       /\ exists o,
            OutputSection.objects r !! this = Some o
            /\ OutputSection.idx o = Z.of_nat i
            /\ OutputChunk.name (OutputSection.chunk o) = name
            /\ Shdr.sh_flags (OutputChunk.shdr (OutputSection.chunk o)) = flags
            /\ Shdr.sh_type (OutputChunk.shdr (OutputSection.chunk o)) = type
            /\ Shdr.sh_addralign (OutputChunk.shdr (OutputSection.chunk o)) = 1.
Proof.
  intros Hnd Hlen r. destruct (ctors_registered args Hnd) as [Hinst Hobjs].
  fold r in Hinst, Hobjs. split.
  - rewrite Hinst. now rewrite !length_fmap.
  - intros i this name flags type Hi. split.
    + rewrite Hinst. rewrite !list_lookup_fmap, Hi. reflexivity.
    + destruct (Hobjs i this name flags type Hi) as (o & Ho & Hidx & Hrest).
      exists o. split; [exact Ho|]. split; [|exact Hrest].
      rewrite Hidx. apply Z.mod_small.
      apply lookup_lt_Some in Hi. lia.
Qed.

Lemma OutputSection_registry_dense_witness :
  let r := OutputSection.ctors three_sections OutputSection.no_instances in
  OutputSection.instances r !! 2%nat = Some 48%N
  /\ exists o,
       OutputSection.objects r !! 48%N = Some o
       /\ OutputSection.idx o = Z.of_nat 2
       /\ OutputChunk.name (OutputSection.chunk o) = ".bss"
       /\ Shdr.sh_flags (OutputChunk.shdr (OutputSection.chunk o)) = 3
       /\ Shdr.sh_type (OutputChunk.shdr (OutputSection.chunk o)) = 8
       /\ Shdr.sh_addralign (OutputChunk.shdr (OutputSection.chunk o)) = 1.
Proof.
  assert (Hnd : NoDup three_sections.*1.*1.*1).
  { simpl. repeat (apply NoDup_cons; split;
      [intros Hin; repeat (apply elem_of_cons in Hin as [Hin|Hin];
                           [discriminate|]);
       now apply elem_of_nil in Hin|]).
    apply NoDup_nil_2. }
  destruct (OutputSection_registry_dense three_sections Hnd
              ltac:(simpl; unfold u32_max; lia)) as [_ H].
  apply (H 2%nat 48%N ".bss" 3 8). reflexivity.
Defined.

Lemma all_sections_empty_spec h sections :
  (forall p, p ∈ sections -> is_Some (load (heap_isecs h) p)) ->
  exists b,
    OutputSection.all_sections_empty h sections = Some b
    /\ (b = true <->
        forall p isec, p ∈ sections -> load (heap_isecs h) p = Some isec ->
                       Shdr.sh_size (InputSection.shdr isec) = 0).
Proof.
  induction sections as [|p rest IH]; intros Hvalid.
  - exists true. split; [reflexivity|]. split; [|reflexivity].
    intros _ q isec Hq. now apply elem_of_nil in Hq.
  - destruct (Hvalid p ltac:(left)) as [isec Hp].
    cbn [OutputSection.all_sections_empty]. rewrite Hp.
    cbn [mbind option_bind]. case_bool_decide as Hsize.
    + exists false. split; [reflexivity|]. split; [discriminate|].
      intros Hall. exfalso. apply Hsize. apply (Hall p isec); [left | exact Hp].
    + destruct IH as (b & Hb & Hiff); [intros q Hq; apply Hvalid; now right|].
      exists b. split; [exact Hb|]. rewrite Hiff. split.
      * intros Hall q isec' Hq Hl. apply elem_of_cons in Hq as [->|Hq].
        -- assert (isec' = isec) by congruence. subst. lia.
        -- eapply Hall; eauto.
      * intros Hall q isec' Hq. apply Hall. now right.
Qed.

(** The loop passes over readable input sections of size 0. *)
Lemma all_sections_empty_prefix h pre rest :
  (forall q, q ∈ pre ->
     exists isec, load (heap_isecs h) q = Some isec
                  /\ Shdr.sh_size (InputSection.shdr isec) = 0) ->
  OutputSection.all_sections_empty h (pre ++ rest)
  = OutputSection.all_sections_empty h rest.
Proof.
  induction pre as [|q pre IH]; intros Hzero; [reflexivity|].
  destruct (Hzero q ltac:(left)) as (isec & Hq & Hsize).
  cbn [app OutputSection.all_sections_empty]. rewrite Hq.
  cbn [mbind option_bind].
  rewrite bool_decide_eq_false_2 by (intros Hne; now apply Hne).
  apply IH. intros q' Hq'. apply Hzero. now right.
Qed.

(** X13: [empty] answers whether the section would contribute no byte:
    with every listed input section readable, it returns [true] exactly
    when all of them have [sh_size] 0, in particular for a section with
    no input sections; and it stops at the first input section of
    non-zero size, wherever in the list that is, without reading the
    ones after it, which need not be readable. *)
Theorem OutputSection_empty_iff (h : Heap) (this : OutputSection.t) :
  let sections := OutputChunk.sections (OutputSection.chunk this) in
  ((forall p, p ∈ sections -> is_Some (load (heap_isecs h) p)) ->
   exists b,
     OutputSection.empty h this = Some b
     /\ (b = true <->
         forall p isec, p ∈ sections -> load (heap_isecs h) p = Some isec ->
                        Shdr.sh_size (InputSection.shdr isec) = 0))
  /\ (sections = [] -> OutputSection.empty h this = Some true)
  /\ (forall pre p rest isec,
        sections = pre ++ p :: rest ->
        (forall q, q ∈ pre ->
           exists isec_q, load (heap_isecs h) q = Some isec_q
                          /\ Shdr.sh_size (InputSection.shdr isec_q) = 0) ->
        load (heap_isecs h) p = Some isec ->
        Shdr.sh_size (InputSection.shdr isec) <> 0 ->
        OutputSection.empty h this = Some false).
Proof.
  intros sections. unfold OutputSection.empty. fold sections.
  split; [|split].
  - intros Hvalid. case_bool_decide as Hne.
    + now apply all_sections_empty_spec.
    + exists true. split; [reflexivity|]. split; [|reflexivity].
      intros _ p isec Hp. destruct sections; [|congruence].
      now apply elem_of_nil in Hp.
  - intros ->. reflexivity.
  - intros pre p rest isec -> Hzero Hp Hsize.
    rewrite bool_decide_eq_true_2 by (now destruct pre).
    rewrite all_sections_empty_prefix by exact Hzero.
    cbn [OutputSection.all_sections_empty]. rewrite Hp.
    cbn [mbind option_bind]. now rewrite bool_decide_eq_true_2.
Qed.

Lemma OutputSection_empty_iff_witness :
  OutputSection.empty (isecs_heap 0 0) (section_over [5%N; 6%N]) = Some true
  /\ OutputSection.empty (isecs_heap 0 24) (section_over [5%N; 6%N; 9%N])
     = Some false
  /\ load (heap_isecs (isecs_heap 0 24)) 9%N = None.
Proof.
  destruct (OutputSection_empty_iff (isecs_heap 0 0) (section_over [5%N; 6%N]))
    as (Hall & _ & _).
  destruct (OutputSection_empty_iff (isecs_heap 0 24)
              (section_over [5%N; 6%N; 9%N]))
    as (_ & _ & Hfirst).
  split; [|split; [|reflexivity]].
  - destruct Hall as (b & Hb & Hiff).
    + intros p Hp. simpl in Hp.
      apply elem_of_cons in Hp as [->|Hp]; [now eexists|].
      apply list_elem_of_singleton in Hp. subst p. now eexists.
    + rewrite Hb. f_equal. apply Hiff. intros p isec Hp Hl. simpl in Hp.
      apply elem_of_cons in Hp as [->|Hp].
      * vm_compute in Hl. now injection Hl as <-.
      * apply list_elem_of_singleton in Hp. subst p.
        vm_compute in Hl. now injection Hl as <-.
  - apply (Hfirst [5%N] 6%N [9%N] (sized_isec 24));
      [reflexivity | | reflexivity | discriminate].
    intros q Hq. apply list_elem_of_singleton in Hq. subst q.
    exists (sized_isec 0). split; reflexivity.
Defined.

(** ** The section header table *)

Lemma current_headers_length h entries :
  (forall e, e ∈ entries -> is_Some (load (heap_chunks h) e)) ->
  length (OutputShdr.current_headers h entries) = length entries.
Proof.
  induction entries as [|e rest IH]; intros Hvalid; [reflexivity|].
  cbn [OutputShdr.current_headers].
  destruct (Hvalid e ltac:(left)) as [c ->]. cbn [length].
  rewrite IH; [reflexivity|]. intros e' He'. apply Hvalid. now right.
Qed.

Lemma concat_repr_length (repr : Shdr.t -> list byte) (hs : list Shdr.t) :
  (forall s, Z.of_nat (length (repr s)) = sizeof_Shdr) ->
  Z.of_nat (length (concat (repr <$> hs))) = Z.of_nat (length hs) * sizeof_Shdr.
Proof.
  intros Hrepr. induction hs as [|s hs IH]; [reflexivity|].
  cbn [fmap list_fmap concat]. rewrite length_app. cbn [length].
  specialize (Hrepr s). lia.
Qed.

(** The loop of [copy_to] is one copy of the headers laid end to end. *)
Lemma write_entries_memcpy (repr : Shdr.t -> list byte) h entries :
  (forall s, Z.of_nat (length (repr s)) = sizeof_Shdr) ->
  (forall e, e ∈ entries -> is_Some (load (heap_chunks h) e)) ->
  forall p buf,
    0 <= p ->
    p + Z.of_nat (length entries) * sizeof_Shdr <= Z.of_nat (length buf) ->
    OutputShdr.write_entries repr h p entries buf
    = memcpy buf p (concat (repr <$> OutputShdr.current_headers h entries)).
Proof.
  intros Hrepr. induction entries as [|e rest IH]; intros Hvalid p buf Hp Hfit.
  - cbn. rewrite memcpy_Some by (simpl in *; lia).
    cbn [length app]. rewrite Nat.add_0_r, take_drop. reflexivity.
  - destruct (Hvalid e ltac:(left)) as [c Hc].
    cbn [OutputShdr.write_entries OutputShdr.current_headers]. rewrite Hc.
    cbn [mbind option_bind fmap list_fmap concat].
    cbn [length] in Hfit. pose proof (Hrepr (OutputChunk.shdr c)) as Hlen.
    unfold sizeof_Shdr in *.
    destruct (memcpy_fits buf p (repr (OutputChunk.shdr c)) Hp ltac:(lia))
      as (buf1 & Hb1 & Hl1).
    rewrite Hb1. cbn [mbind option_bind].
    rewrite IH; [|intros e' He'; apply Hvalid; now right | lia | lia].
    rewrite <- Hlen. now apply memcpy_app.
Qed.

(** X14: the section header table.  [set_entries] sizes the table at 64
    bytes per entry, and [copy_to] then writes exactly that many bytes
    at [sh_offset]: the headers the entries point at, as they are when
    [copy_to] runs, one after the other, and nothing outside the table.
    The byte image of a header is left open; it has 64 bytes. *)
Theorem OutputShdr_copy_to_table (repr : Shdr.t -> list byte) (h : Heap)
    (vec : list ptr) (this : OutputShdr.t) (buf : list byte) :
  (forall s, Z.of_nat (length (repr s)) = sizeof_Shdr) ->
  (forall e, e ∈ vec -> is_Some (load (heap_chunks h) e)) ->
  Z.of_nat (length vec) * sizeof_Shdr < u64_max ->
  let table := OutputShdr.set_entries vec this in
  let at_ := Shdr.sh_offset (OutputChunk.shdr (OutputShdr.chunk table)) in
  let size := Shdr.sh_size (OutputChunk.shdr (OutputShdr.chunk table)) in
  0 <= at_ -> at_ + size <= Z.of_nat (length buf) ->
  size = Z.of_nat (length vec) * sizeof_Shdr
  /\ at_ = Shdr.sh_offset (OutputChunk.shdr (OutputShdr.chunk this))
  /\ exists buf',
       OutputShdr.copy_to repr h table buf = Some buf'
       /\ length buf' = length buf
       /\ take (Z.to_nat size) (drop (Z.to_nat at_) buf')
          = concat (repr <$> OutputShdr.current_headers h vec)
       /\ (forall i : nat,
             (i < Z.to_nat at_ \/ Z.to_nat at_ + Z.to_nat size <= i)%nat ->
             buf' !! i = buf !! i).
Proof.
  intros Hrepr Hvalid Hsmall table at_ size Hat Hfit.
  assert (Hsize : size = Z.of_nat (length vec) * sizeof_Shdr).
  { subst size table. cbn. apply Z.mod_small. unfold sizeof_Shdr in *. lia. }
  split; [exact Hsize|]. split; [reflexivity|].
  unfold OutputShdr.copy_to. fold at_. cbn [OutputShdr.set_entries OutputShdr.entries table].
  rewrite (write_entries_memcpy repr h vec Hrepr Hvalid at_ buf Hat)
    by (rewrite <- Hsize; exact Hfit).
  set (bytes := concat (repr <$> OutputShdr.current_headers h vec)).
  assert (Hbytes : Z.of_nat (length bytes) = size).
  { unfold bytes. rewrite (concat_repr_length repr _ Hrepr).
    rewrite current_headers_length by exact Hvalid. now rewrite Hsize. }
  destruct (memcpy_fits buf at_ bytes Hat ltac:(lia)) as (buf' & Hb & Hl).
  exists buf'. split; [exact Hb|]. split; [exact Hl|]. split.
  - replace (Z.to_nat size) with (length bytes) by lia.
    eapply memcpy_range; eauto.
  - intros i Hi. eapply memcpy_lookup_outside; [exact Hb|]. lia.
Qed.

Lemma Shdr_bytes_length (s : Shdr.t) :
  Z.of_nat (length (Shdr_bytes s)) = sizeof_Shdr.
Proof.
  unfold Shdr_bytes. rewrite !length_app, !le_bytes_length. reflexivity.
Defined.

Lemma OutputShdr_copy_to_table_witness :
  exists buf',
    OutputShdr.copy_to Shdr_bytes sample_heap sample_shdr_table
      (replicate 140 x90) = Some buf'
    /\ length buf' = length (replicate 140 x90)
    /\ take (Z.to_nat 128) (drop (Z.to_nat 8) buf')
       = concat (Shdr_bytes
                   <$> OutputShdr.current_headers sample_heap [8%N; 9%N])
    /\ (forall i : nat,
          (i < Z.to_nat 8 \/ Z.to_nat 8 + Z.to_nat 128 <= i)%nat ->
          buf' !! i = replicate 140 x90 !! i).
Proof.
  assert (Hvalid : forall e, e ∈ [8%N; 9%N] ->
                     is_Some (load (heap_chunks sample_heap) e)).
  { intros e He. apply elem_of_cons in He as [->|He]; [now eexists|].
    apply list_elem_of_singleton in He. subst e. now eexists. }
  destruct (OutputShdr_copy_to_table Shdr_bytes sample_heap [8%N; 9%N]
              (OutputShdr.mk
                 (OutputChunk.upd_shdr (Shdr.set_offset 8)
                    (OutputShdr.chunk OutputShdr.ctor)) [])
              (replicate 140 x90) Shdr_bytes_length Hvalid
              ltac:(vm_compute; reflexivity)
              ltac:(vm_compute; discriminate)
              ltac:(vm_compute; discriminate)) as (_ & _ & H).
  exact H.
Defined.

(** ** The name table read back *)

Lemma string_skip_app (a b : string) :
  string_skip (String.length a) (a +:+ b) = b.
Proof.
  induction a as [|c a IH]; [now destruct b|].
  change (string_skip (S (String.length a)) (String c (a +:+ b)) = b).
  exact IH.
Qed.

Lemma until_NUL_terminated (s rest : string) :
  until_NUL (s +:+ (NUL +:+ rest)) = until_NUL s.
Proof.
  induction s as [|c s IH]; [reflexivity|].
  change (until_NUL (String c (s +:+ (NUL +:+ rest))) = until_NUL (String c s)).
  cbn [until_NUL]. destruct (Ascii.eqb c "000"); [reflexivity | now rewrite IH].
Qed.

(** X15: names come back.  Whatever was added before and after, the
    string that starts at the offset [add_string s] returned and runs to
    the next NUL is [s] up to its own first NUL, so it is [s] itself when
    [s] holds no NUL; and offset 0 always reads as the empty name. *)
Theorem ShstrtabSection_name_round_trip (earlier later : list string)
    (s : string) :
  let t0 := fst (ShstrtabSection.add_strings earlier ShstrtabSection.ctor) in
  let t1 := fst (ShstrtabSection.add_string s t0) in
  let off := snd (ShstrtabSection.add_string s t0) in
  let t2 := fst (ShstrtabSection.add_strings later t1) in
  name_at (ShstrtabSection.contents t2) (Z.to_nat off) = until_NUL s
  /\ (NUL_free s -> name_at (ShstrtabSection.contents t2) (Z.to_nat off) = s)
  /\ name_at (ShstrtabSection.contents t2) 0 = "".
Proof.
  intros t0 t1 off t2.
  destruct (add_strings_contents earlier ShstrtabSection.ctor) as [s0 Hs0].
  fold t0 in Hs0.
  destruct (add_strings_contents later t1) as [s2 Hs2]. fold t2 in Hs2.
  assert (Hc1 : ShstrtabSection.contents t1
                = (ShstrtabSection.contents t0 +:+ s) +:+ NUL) by reflexivity.
  assert (Hname : name_at (ShstrtabSection.contents t2) (Z.to_nat off)
                  = until_NUL s).
  { unfold name_at. rewrite Hs2, Hc1, !string_app_assoc.
    subst off. cbn [snd ShstrtabSection.add_string]. rewrite Nat2Z.id.
    rewrite string_skip_app. apply until_NUL_terminated. }
  split; [exact Hname|]. split; [intros Hfree; now rewrite Hname|].
  unfold name_at. rewrite Hs2, Hc1, Hs0. reflexivity.
Qed.

Lemma ShstrtabSection_name_round_trip_witness :
  let t0 := fst (ShstrtabSection.add_strings [".text"] ShstrtabSection.ctor) in
  let off := snd (ShstrtabSection.add_string ".rodata" t0) in
  let t2 :=
    fst (ShstrtabSection.add_strings [".bss"]
           (fst (ShstrtabSection.add_string ".rodata" t0))) in
  name_at (ShstrtabSection.contents t2) (Z.to_nat off) = ".rodata".
Proof.
  intros t0 off t2.
  destruct (ShstrtabSection_name_round_trip [".text"] [".bss"] ".rodata")
    as (_ & H & _).
  apply H. reflexivity.
Defined.

(** A name with a NUL inside reads back cut short. *)
Example name_with_NUL_is_cut :
  let s := "ab" +:+ NUL +:+ "cd" in
  name_at (ShstrtabSection.contents
             (fst (ShstrtabSection.add_string s ShstrtabSection.ctor)))
          (Z.to_nat (snd (ShstrtabSection.add_string s ShstrtabSection.ctor)))
  = "ab".
Proof. reflexivity. Qed.

Lemma names_size_nonneg (names : list string) :
  0 <= foldr (fun s acc => Z.of_nat (String.length s) + 1 + acc) 0 names.
Proof. induction names as [|s names IH]; cbn [foldr]; lia. Qed.

Lemma add_strings_offsets names t :
  let n0 := Z.of_nat (String.length (ShstrtabSection.contents t)) in
  let t' := fst (ShstrtabSection.add_strings names t) in
  let offs := snd (ShstrtabSection.add_strings names t) in
  let n' := Z.of_nat (String.length (ShstrtabSection.contents t')) in
  length offs = length names
  /\ StronglySorted Z.lt offs
  /\ Forall (fun o => n0 <= o < n') offs
  /\ n' = n0 + foldr (fun s acc => Z.of_nat (String.length s) + 1 + acc) 0 names.
Proof.
  revert t. induction names as [|s names IH]; intros t n0 t' offs n'.
  - subst n0 t' offs n'. cbn. repeat split; [constructor | constructor | lia].
  - subst t' offs n'. cbn [ShstrtabSection.add_strings].
    destruct (ShstrtabSection.add_string s t) as [t1 off] eqn:E1.
    specialize (IH t1). cbn zeta in IH.
    destruct (ShstrtabSection.add_strings names t1) as [t2 offs2] eqn:E2.
    cbn [fst snd] in *. destruct IH as (Hlen & Hsorted & Hrange & Hsize).
    unfold ShstrtabSection.add_string in E1. injection E1 as <- <-.
    cbn [ShstrtabSection.contents] in *.
    rewrite !string_length_app in *. cbn [NUL String.length] in *.
    fold n0 in Hrange, Hsize |- *.
    split; [cbn; now rewrite Hlen|]. split; [|split].
    + constructor; [exact Hsorted|].
      eapply Forall_impl; [exact Hrange|]. intros o Ho. cbn beta in Ho. lia.
    + pose proof (names_size_nonneg names) as Hnn.
      constructor; [subst n0; lia|].
      eapply Forall_impl; [exact Hrange|]. intros o Ho. cbn beta in Ho. lia.
    + cbn [foldr]. lia.
Qed.

(** X16: name offsets never collide.  The offsets handed out for a list
    of names are strictly increasing, one per name even for equal names,
    all of them between 1 and [sh_size], and [sh_size] ends as 1 plus the
    length of every name plus its terminator. *)
Theorem ShstrtabSection_offsets_increase (names : list string) :
  let t := fst (ShstrtabSection.add_strings names ShstrtabSection.ctor) in
  let offs := snd (ShstrtabSection.add_strings names ShstrtabSection.ctor) in
  let size := Shdr.sh_size (OutputChunk.shdr (ShstrtabSection.chunk t)) in
  length offs = length names
  /\ StronglySorted Z.lt offs
  /\ Forall (fun o => 1 <= o < size) offs
  /\ size = 1 + foldr (fun s acc => Z.of_nat (String.length s) + 1 + acc) 0 names.
Proof.
  intros t offs size.
  destruct (add_strings_offsets names ShstrtabSection.ctor)
    as (Hlen & Hsorted & Hrange & Hsize).
  assert (Hsized : size = Z.of_nat (String.length (ShstrtabSection.contents t)))
    by (apply add_strings_sized, ctor_sized).
  rewrite Hsized. auto.
Qed.

(** ** Chunks written side by side *)

(** X17: chunks whose file ranges do not meet can be written in either
    order.  With the [.interp] chunk placed before the name table,
    running the two [copy_to] in one order or the other gives the same
    image, in which each range holds its chunk's bytes. *)
Theorem copy_to_disjoint_chunks (interp : OutputChunk.t)
    (shstrtab : ShstrtabSection.t) (buf : list byte) :
  let at1 := Shdr.sh_offset (OutputChunk.shdr interp) in
  let at2 := Shdr.sh_offset (OutputChunk.shdr (ShstrtabSection.chunk shstrtab)) in
  let names := String.list_byte_of_string (ShstrtabSection.contents shstrtab) in
  0 <= at1 -> at1 + 28 <= at2 ->
  at2 + Z.of_nat (length names) <= Z.of_nat (length buf) ->
  exists buf',
    (b ← InterpSection.copy_to interp buf; ShstrtabSection.copy_to shstrtab b)
    = Some buf'
    /\ (b ← ShstrtabSection.copy_to shstrtab buf; InterpSection.copy_to interp b)
       = Some buf'
    /\ take 28 (drop (Z.to_nat at1) buf')
       = String.list_byte_of_string InterpSection.path
    /\ take (length names) (drop (Z.to_nat at2) buf') = names.
Proof.
  intros at1 at2 names H1 H12 H2.
  unfold InterpSection.copy_to, ShstrtabSection.copy_to.
  fold at1 at2 names.
  exact (memcpy_commute buf at1
           (take (Z.to_nat InterpSection.sizeof_path)
                 (String.list_byte_of_string InterpSection.path))
           at2 names H1 H12 H2).
Qed.

Lemma copy_to_disjoint_chunks_witness :
  exists buf',
    (b ← InterpSection.copy_to sample_interp (replicate 64 x90);
     ShstrtabSection.copy_to
       (ShstrtabSection.mk
          (OutputChunk.upd_shdr (Shdr.set_offset 40)
             (ShstrtabSection.chunk sample_shstrtab))
          (ShstrtabSection.contents sample_shstrtab)) b)
    = Some buf'
    /\ take 28 (drop (Z.to_nat 1) buf')
       = String.list_byte_of_string InterpSection.path.
Proof.
  destruct (copy_to_disjoint_chunks sample_interp
              (ShstrtabSection.mk
                 (OutputChunk.upd_shdr (Shdr.set_offset 40)
                    (ShstrtabSection.chunk sample_shstrtab))
                 (ShstrtabSection.contents sample_shstrtab))
              (replicate 64 x90)
              ltac:(vm_compute; discriminate) ltac:(vm_compute; discriminate)
              ltac:(vm_compute; discriminate))
    as (buf' & H1 & _ & H3 & _).
  exists buf'. split; [exact H1 | exact H3].
Defined.

(** ** Addresses as sums *)

(** X18: the address of a symbol that resolves into a merged section is
    the sum of the section's address, the winning input section's
    [merged_offset], the piece's [output_offset] and the addend, taken
    modulo 2^64 once; the symbol's own [input_section] and [value] play
    no part in it. *)
Theorem Symbol_get_addr_piece_sum (h : Heap) (s : Symbol.t)
    (p : StringPiece.t) (isec : InputSection.t) (ms : OutputChunk.t) :
  load (heap_pieces h) (StringPieceRef.piece (Symbol.piece_ref s)) = Some p ->
  load (heap_isecs h) (StringPiece.isec p) = Some isec ->
  load (heap_chunks h) (InputSection.merged_section isec) = Some ms ->
  Symbol_get_addr h s
  = Some ((Shdr.sh_addr (OutputChunk.shdr ms)
           + InputSection.merged_offset isec
           + StringPiece.output_offset p
           + StringPieceRef.addend (Symbol.piece_ref s)) mod u64_max)
  /\ forall s' : Symbol.t,
       Symbol.piece_ref s' = Symbol.piece_ref s ->
       Symbol_get_addr h s' = Symbol_get_addr h s.
Proof.
  intros Hp Hi Hm.
  assert (Hnn : StringPieceRef.piece (Symbol.piece_ref s) <> nullptr)
    by (apply load_Some in Hp; tauto).
  assert (Hroute : forall s' : Symbol.t,
            Symbol.piece_ref s' = Symbol.piece_ref s ->
            Symbol_get_addr h s'
            = Some ((Shdr.sh_addr (OutputChunk.shdr ms)
                     + InputSection.merged_offset isec
                     + StringPiece.output_offset p
                     + StringPieceRef.addend (Symbol.piece_ref s)) mod u64_max)).
  { intros s' Href. unfold Symbol_get_addr. rewrite Href.
    unfold is_null at 1. rewrite bool_decide_eq_false_2 by exact Hnn.
    cbn [negb]. rewrite Hp. cbn [mbind option_bind].
    unfold StringPiece_get_addr. rewrite Hi. cbn [mbind option_bind].
    rewrite Hm. cbn [mbind option_bind]. f_equal. unfold u64_add.
    rewrite Zplus_mod_idemp_l, <- Z.add_assoc, Zplus_mod_idemp_l.
    f_equal. lia. }
  split; [now apply Hroute|].
  intros s' Href. rewrite (Hroute s' Href). symmetry. now apply Hroute.
Qed.

Lemma Symbol_get_addr_piece_sum_witness :
  Symbol_get_addr sample_heap (symbol_at 3%N 2 5%N 7)
  = Some ((4194304 + 0 + 16 + 2) mod u64_max)
  /\ forall s' : Symbol.t,
       Symbol.piece_ref s' = Symbol.piece_ref (symbol_at 3%N 2 5%N 7) ->
       Symbol_get_addr sample_heap s'
       = Symbol_get_addr sample_heap (symbol_at 3%N 2 5%N 7).
Proof.
  apply (Symbol_get_addr_piece_sum sample_heap (symbol_at 3%N 2 5%N 7)
           (StringPiece.mk "hello" 5%N 16) (isec_in 9%N 8%N 64 0)
           (chunk_at 4194304 32 1)); reflexivity.
Defined.
